(** * swordle: the Wordle simulator and the hard-mode solver

    A shallow embedding of [wordle_solver/simulator.py] (class
    [WordleSimulator]) and [wordle_solver/solvers/hard_mode.py] (class
    [HardModeSolver]), and the properties of the scorer, of the candidate
    filter and of the ranking that the specification states.

    Conventions.
    - A Python [str] is a [list ascii], a list of code points below 256;
      the emoji strings of the simulator are lists of code points.
    - Python [int] counters are [Z]; letter counts, which only ever count
      rows, are [nat].
    - A pandas DataFrame is the list of its rows, in index order; a boolean
      mask selection [df[mask]] is [filter]; a [dict] or [Counter] is a
      [gmap].
    - Which columns a frame has is not part of a row. The methods of the
      solver are modelled on a frame that has the columns they read; the
      one loss of columns that a call causes and meets itself, in the loop
      of [load_result], is followed there. A state that a raise has left
      shows the rows and the attributes as they are at the raise, and not
      which columns the frame lacks: the properties of a call that depend
      on the columns of the frame it finds are stated for the frames that
      [wordbank_features] leaves ([complete]) or for frames with rows.
    - A call either returns or raises; what is raised is an [exn], and a
      stateful call carries the state it leaves behind in both cases.
    - Writing to standard output is not modelled. *)

From stdpp Require Import gmap gmultiset strings list sorting.
From Stdlib Require Import ZArith Ascii.
From Stdlib Require String.

Open Scope char_scope.
Open Scope list_scope.

(** ** Python values shared by the two modules *)

Abbreviation str := (list ascii).

(** A string literal as a Python [str]. *)
Definition py (s : string) : str := String.list_ascii_of_string s.

(** The exceptions that the two classes can raise: three built-in ones, and
    [pandas.errors.EmptyDataError], which [read_csv] raises on a file that
    holds no line. *)
Inductive exn := IndexError | KeyError | TypeError | EmptyDataError.

(** The result of a call without side effects. *)
Inductive res (A : Type) :=
  | Ret (a : A)
  | Throw (e : exn).
Arguments Ret {A} a.
Arguments Throw {A} e.

(** The result of a method call on an object whose state is [S]. *)
Inductive outcome (S A : Type) :=
  | Ok (a : A) (s : S)
  | Raise (e : exn) (s : S).
Arguments Ok {S A} a s.
Arguments Raise {S A} e s.

(** The state a call leaves behind, whether it returned or raised. *)
Definition final {S A} (o : outcome S A) : S :=
  match o with Ok _ s => s | Raise _ s => s end.

Definition raised {S A} (o : outcome S A) : option exn :=
  match o with Ok _ _ => None | Raise e _ => Some e end.

(** The value a call returns, when it returns. *)
Definition returned {S A} (o : outcome S A) : option A :=
  match o with Ok a _ => Some a | Raise _ _ => None end.

(** [x[i]] on a [str]. *)
Definition getitem (x : str) (i : nat) : res ascii :=
  match x !! i with
  | Some c => Ret c
  | None => Throw IndexError
  end.

(** [c.lower()] on the code points below 256: the letters [A] to [Z], and
    the capital letters of Latin-1, U+00C0 to U+00DE without the
    multiplication sign U+00D7, move up by 32; no other code point below 256
    changes. A [str] holds code points below 256 only: on those
    [str.lower] keeps the length, which it does not on all of Unicode. *)
Definition lower_char (c : ascii) : ascii :=
  let n := nat_of_ascii c in
  if bool_decide (65 ≤ n ≤ 90 ∨ (192 ≤ n ≤ 222 ∧ n ≠ 215))
  then ascii_of_nat (n + 32) else c.

(** [c.upper()] on the ASCII range. Beyond it [str.upper] leaves the code
    points below 256 or changes the length; what it returns there only
    reaches the rendered rows and the keyboard of the simulator, and the
    properties of those are stated for the letters [a] to [z]. *)

Definition upper_char (c : ascii) : ascii :=
  let n := nat_of_ascii c in
  if bool_decide (97 ≤ n ≤ 122) then ascii_of_nat (n - 32) else c.

Definition lower (s : str) : str := map lower_char s.
Definition upper (s : str) : str := map upper_char s.

(** A lowercase letter, [a] to [z]. *)
Definition is_lower (c : ascii) : Prop := 97 ≤ nat_of_ascii c ≤ 122.

Global Instance is_lower_dec c : Decision (is_lower c).
Proof. unfold is_lower; apply _. Defined.

(** A word as the data model has it: lowercase letters only. *)
Definition lowercase (w : str) : Prop := Forall is_lower w.

(** ** simulator.py : WordleSimulator *)

Module Simulator.

(** [chosen_alphabet]: the letters seen so far under each colour. *)
Record alphabet := Alphabet {
  chosen_G : list ascii;
  chosen_Y : list ascii;
  chosen_K : list ascii
}.

Record simulator := Sim {
  word : str;
  n_guesses : Z;
  max_guesses : Z;
  results : list str;
  unicode_results : list (list N);
  alpha_blocks_results : list str;
  done : bool;
  verbose : bool;
  chosen_alphabet : alphabet
}.

(** [__init__] with its default arguments made explicit. *)
Definition init (w : str) (max : Z) (v : bool) : simulator :=
  Sim w 0 max [] [] [] false v (Alphabet [] [] []).

(** [blocks_unicode]: the emoji of a colour, as a code point. *)
Definition blocks_unicode (c : ascii) : res N :=
  if decide (c = "G") then Ret 0x1F7E9%N
  else if decide (c = "Y") then Ret 0x1F7E8%N
  else if decide (c = "K") then Ret 0x2B1B%N
  else Throw KeyError.

(** [blocks_cc]: the terminal colour code of a colour. *)
Definition blocks_cc (c : ascii) : res str :=
  if decide (c = "G") then Ret (py "1;1;42")
  else if decide (c = "Y") then Ret (py "1;1;43")
  else if decide (c = "K") then Ret (py "1;1;40")
  else Throw KeyError.

Fixpoint convert_unicode (result : str) : res (list N) :=
  match result with
  | [] => Ret []
  | c :: rest =>
      match blocks_unicode c with
      | Throw e => Throw e
      | Ret u =>
          match convert_unicode rest with
          | Throw e => Throw e
          | Ret us => Ret (u :: us)
          end
      end
  end.

(** [self.chosen_alphabet[R].append(l)]; [R] is a key of [blocks_cc]. *)
Definition chosen_append (R l : ascii) (a : alphabet) : alphabet :=
  if decide (R = "G") then Alphabet (chosen_G a ++ [l]) (chosen_Y a) (chosen_K a)
  else if decide (R = "Y") then Alphabet (chosen_G a) (chosen_Y a ++ [l]) (chosen_K a)
  else Alphabet (chosen_G a) (chosen_Y a) (chosen_K a ++ [l]).

Definition ESC : ascii := ascii_of_nat 27.

(** The loop of [convert_alpha_blocks] over [zip(guess.upper(), result)]:
    [blocks] collects the blocks written so far, [a] is the alphabet. *)
Fixpoint alpha_blocks_loop (zipped : list (ascii * ascii)) (blocks : str)
    (a : alphabet) : res str * alphabet :=
  match zipped with
  | [] => (Ret blocks, a)
  | (G, R) :: rest =>
      match blocks_cc R with
      | Throw e => (Throw e, a)
      | Ret color_code =>
          alpha_blocks_loop rest
            (blocks ++ [ESC; "["] ++ color_code ++ ["m"; " "; G; " "; ESC; "["; "0"; "m"])
            (chosen_append R (lower_char G) a)
      end
  end.

(** [convert_alpha_blocks]: positions of the guess beyond the result keep
    their upper-case letter. *)
Definition convert_alpha_blocks (guess result : str) (a : alphabet)
    : res str * alphabet :=
  let up := upper guess in
  match alpha_blocks_loop (zip up result) [] a with
  | (Ret blocks, a') => (Ret (blocks ++ drop (length result) up), a')
  | (Throw e, a') => (Throw e, a')
  end.

(** The first loop of [_result]: [i] is the index reached, [rest] what is
    left of the guess; the state is [(result, filtered_word, not_green_i)]. *)
Fixpoint green_pass (word : str) (i : nat) (rest : str)
    (st : str * str * list nat) : res (str * str * list nat) :=
  match rest with
  | [] => Ret st
  | guess_letter :: rest' =>
      match getitem word i with
      | Throw e => Throw e
      | Ret w =>
          let '(result, filtered_word, not_green_i) := st in
          if decide (guess_letter = w)
          then green_pass word (S i) rest'
                 (<[i:="G"]> result, <[i:="_"]> filtered_word, not_green_i)
          else green_pass word (S i) rest'
                 (result, filtered_word, not_green_i ++ [i])
      end
  end.

(** The second loop of [_result], over [not_green_i]; the state is
    [(result, filtered_word)]. [y_filter] is the first index of the
    guessed letter in [filtered_word]. *)
Fixpoint yellow_pass (guess : str) (not_green_i : list nat)
    (st : str * str) : res (str * str) :=
  match not_green_i with
  | [] => Ret st
  | i :: rest =>
      match getitem guess i with
      | Throw e => Throw e
      | Ret g =>
          let '(result, filtered_word) := st in
          if decide (g ∈ filtered_word)
          then match list_find (λ c, g = c) filtered_word with
               | Some (y_filter, _) =>
                   yellow_pass guess rest
                     (<[i:="Y"]> result, <[y_filter:="_"]> filtered_word)
               | None => Throw IndexError
               end
          else yellow_pass guess rest (<[i:="K"]> result, filtered_word)
      end
  end.

(** [_result(self, guess)], as a function of [self.word]. *)
Definition _result (word guess : str) : res str :=
  match green_pass word 0 guess (guess, word, []) with
  | Throw e => Throw e
  | Ret (result, filtered_word, not_green_i) =>
      match yellow_pass guess not_green_i (result, filtered_word) with
      | Throw e => Throw e
      | Ret (result', _) => Ret result'
      end
  end.

(** [guess(self, word)]. *)
Definition guess (s : simulator) (w : str) : outcome simulator str :=
  let guess := lower w in
  let n := (n_guesses s + 1)%Z in
  let d := if decide (n = max_guesses s) then true else done s in
  let s1 := Sim (word s) n (max_guesses s) (results s) (unicode_results s)
              (alpha_blocks_results s) d (verbose s) (chosen_alphabet s) in
  let end_game (result : str) (s2 : simulator) : outcome simulator str :=
    if forallb (λ r, bool_decide (r = "G")) result
    then Ok result (Sim (word s2) (n_guesses s2) (max_guesses s2) (results s2)
                      (unicode_results s2) (alpha_blocks_results s2) true
                      (verbose s2) (chosen_alphabet s2))
    else Ok result s2 in
  if decide (n ≤ max_guesses s)%Z then
    match _result (word s) guess with
    | Throw e => Raise e s1
    | Ret result =>
        match convert_unicode result with
        | Throw e => Raise e s1
        | Ret unicode_result =>
            match convert_alpha_blocks guess result (chosen_alphabet s) with
            | (Throw e, a') =>
                Raise e (Sim (word s) n (max_guesses s) (results s)
                           (unicode_results s) (alpha_blocks_results s) d
                           (verbose s) a')
            | (Ret alpha_blocks_result, a') =>
                end_game result
                  (Sim (word s) n (max_guesses s) (results s ++ [result])
                     (unicode_results s ++ [unicode_result])
                     (alpha_blocks_results s ++ [alpha_blocks_result]) d
                     (verbose s) a')
            end
        end
    end
  else end_game (py "XXXXX") s1.

(** Calling [guess] on each word of [ws] in turn: the values returned and
    the state after the last call; a raise stops the run. *)
Fixpoint guesses (s : simulator) (ws : list str) : outcome simulator (list str) :=
  match ws with
  | [] => Ok [] s
  | w :: rest =>
      match guess s w with
      | Raise e s' => Raise e s'
      | Ok r s' =>
          match guesses s' rest with
          | Raise e s'' => Raise e s''
          | Ok rs s'' => Ok (r :: rs) s''
          end
      end
  end.

End Simulator.

(** ** The scorer as section 4.1 of the specification words it *)

Module ScorerSpec.

Inductive symbol := EXACT | PRESENT | ABSENT.

(** The feedback encoding of the simulator: G, Y and K. *)
Definition encode (m : symbol) : ascii :=
  match m with EXACT => "G" | PRESENT => "Y" | ABSENT => "K" end.

(** Pass 1: positions where guess and hidden agree are marked EXACT and
    one occurrence of the letter leaves the multiset. *)
Fixpoint pass1 (hidden guess : str) (M : gmultiset ascii)
    : list (option symbol) * gmultiset ascii :=
  match hidden, guess with
  | h :: hs, g :: gs =>
      if decide (g = h)
      then let '(fb, M') := pass1 hs gs (M ∖ {[+ g +]}) in (Some EXACT :: fb, M')
      else let '(fb, M') := pass1 hs gs M in (None :: fb, M')
  | _, _ => ([], M)
  end.

(** Pass 2, left to right over the positions pass 1 left unmarked. *)
Fixpoint pass2 (guess : str) (fb : list (option symbol)) (M : gmultiset ascii)
    : list symbol :=
  match guess, fb with
  | g :: gs, Some m :: fb' => m :: pass2 gs fb' M
  | g :: gs, None :: fb' =>
      if decide (0 < multiplicity g M)
      then PRESENT :: pass2 gs fb' (M ∖ {[+ g +]})
      else ABSENT :: pass2 gs fb' M
  | _, _ => []
  end.

(** [score(hidden, guess)]: the multiset starts as a copy of the hidden
    word's letters. *)
Definition score (hidden guess : str) : list symbol :=
  let '(fb, M) := pass1 hidden guess (list_to_set_disj hidden) in
  pass2 guess fb M.

End ScorerSpec.

(** ** solvers/hard_mode.py : HardModeSolver *)

Module HardMode.

(** A row of [self.wordbank]. The numbered columns [letter_1], [letter_2],
    ... are the list [letter], position [i] holding [letter_{i+1}], and
    likewise for [count], [repeat] and [across]. *)
Record row := Row {
  word : str;
  no_green_word : str;
  letter : list ascii;
  count : list nat;
  repeat : list bool;
  across : list nat;
  inplace_score : nat;
  across_score : nat;
  combined_score : nat
}.

Record solver := Solver {
  n_letters : nat;
  score : str;
  verbose : bool;
  wordbank : list row;
  green_letters : gmap nat ascii;
  letter_counts : list (gmap ascii nat);
  guesses : list str;
  results : list str
}.

Definition set_wordbank (wb : list row) (s : solver) : solver :=
  Solver (n_letters s) (score s) (verbose s) wb (green_letters s)
    (letter_counts s) (guesses s) (results s).

Definition set_green_letters (g : gmap nat ascii) (s : solver) : solver :=
  Solver (n_letters s) (score s) (verbose s) (wordbank s) g
    (letter_counts s) (guesses s) (results s).

Definition set_letter_counts (lc : list (gmap ascii nat)) (s : solver) : solver :=
  Solver (n_letters s) (score s) (verbose s) (wordbank s) (green_letters s)
    lc (guesses s) (results s).

Definition set_guesses (gs : list str) (s : solver) : solver :=
  Solver (n_letters s) (score s) (verbose s) (wordbank s) (green_letters s)
    (letter_counts s) gs (results s).

Definition set_results (rs : list str) (s : solver) : solver :=
  Solver (n_letters s) (score s) (verbose s) (wordbank s) (green_letters s)
    (letter_counts s) (guesses s) rs.

(** The words of the candidate pool, in row order. *)
Definition pool (s : solver) : list str := map word (wordbank s).

(** *** wordbank_features *)

(** [self.wordbank[['word','no_green_word']]]. *)
Definition key_row (r : row) : row :=
  Row (word r) (no_green_word r) [] [] [] [] 0 0 0.

(** [Series.apply(f)]: the first row on which [f] raises ends the call. *)
Fixpoint apply {A B} (f : A → res B) (col : list A) : res (list B) :=
  match col with
  | [] => Ret []
  | x :: rest =>
      match f x with
      | Throw e => Throw e
      | Ret y =>
          match apply f rest with
          | Throw e => Throw e
          | Ret ys => Ret (y :: ys)
          end
      end
  end.

(** [collections.Counter(column)]. *)
Definition Counter (col : list ascii) : gmap ascii nat :=
  foldl (λ m c, <[c := S (default 0 (m !! c))]> m) ∅ col.

(** The row with the columns [letter_{i+1}] and [count_{i+1}] added. *)
Definition add_letter (r : row) (c : ascii) (n : nat) : row :=
  Row (word r) (no_green_word r) (letter r ++ [c]) (count r ++ [n])
    (repeat r) (across r) (inplace_score r) (across_score r) (combined_score r).

(** The first loop of [wordbank_features], over the positions [ps]; the
    state is the frame and [self.letter_counts], in insertion order. *)
Fixpoint letter_loop (green : gmap nat ascii) (ps : list nat)
    (wb : list row) (lc : list (gmap ascii nat))
    : outcome (list row * list (gmap ascii nat)) unit :=
  match ps with
  | [] => Ok tt (wb, lc)
  | i :: ps' =>
      match green !! i with
      | None =>
          match apply (λ r, getitem (word r) i) wb with
          | Throw e => Raise e (wb, lc)
          | Ret col =>
              let cnt := Counter col in
              letter_loop green ps'
                (zip_with (λ r c, add_letter r c (default 0 (cnt !! c))) wb col)
                (lc ++ [cnt])
          end
      | Some _ =>
          letter_loop green ps' (map (λ r, add_letter r "_" 0) wb) (lc ++ [∅])
      end
  end.

(** The body of the loop that sums the counters into [across]. *)
Definition add_count (l : ascii) (n : nat) (across : gmap ascii nat)
    : gmap ascii nat :=
  match across !! l with
  | None => <[l := n]> across
  | Some m => <[l := m + n]> across
  end.

(** The [across] dictionary: letter counts summed over the positions. *)
Definition across_table (lc : list (gmap ascii nat)) : gmap ascii nat :=
  foldl (λ across letter_count, map_fold add_count across letter_count)
    {["_" := 0]} lc.

(** [repeat_{i+1}]: some earlier letter column equals column [i]. *)
Definition repeat_at (letters : list ascii) (i : nat) : bool :=
  existsb (λ j, bool_decide (letters !! j = letters !! i)) (seq 0 i).

(** [repeat_1] is [False]; the others are computed for [i] from 1 on. *)
Definition add_repeat (n : nat) (r : row) : row :=
  Row (word r) (no_green_word r) (letter r) (count r)
    (false :: map (repeat_at (letter r)) (seq 1 (n - 1)))
    (across r) (inplace_score r) (across_score r) (combined_score r).

(** [across_{i+1}] is [letter_{i+1}] mapped through the dictionary; every
    letter of a letter column is a key of it. *)
Definition add_across (n : nat) (tbl : gmap ascii nat) (r : row) : row :=
  Row (word r) (no_green_word r) (letter r) (count r) (repeat r)
    (map (λ c, default 0 (tbl !! c)) (take n (letter r)))
    (inplace_score r) (across_score r) (combined_score r).

(** [inplace_score], from the first [n] count columns (line 94). *)
Definition add_inplace (n : nat) (r : row) : row :=
  Row (word r) (no_green_word r) (letter r) (count r) (repeat r) (across r)
    (sum_list (take n (count r))) (across_score r) (combined_score r).

(** The three scores, from the first [n] count, across and repeat columns. *)
Definition add_scores (n : nat) (r : row) : row :=
  let inplace := sum_list (take n (count r)) in
  let across_s :=
    sum_list (zip_with (λ a (rp : bool), if rp then 0 else a)
                (take n (across r)) (take n (repeat r))) in
  Row (word r) (no_green_word r) (letter r) (count r) (repeat r) (across r)
    inplace across_s (inplace + across_s).

(** [wordbank_features(self)], on a frame that has its columns [word] and
    [no_green_word]. With [n_letters = 0] the selections of lines 99 and 100
    have no column and their values are floats, on which [~] raises
    TypeError: the call has then set [repeat_1] and [inplace_score] and
    neither of the other two scores. *)
Definition wordbank_features (s : solver) : outcome solver unit :=
  let n := n_letters s in
  match letter_loop (green_letters s) (seq 0 n) (map key_row (wordbank s)) [] with
  | Raise e (wb, lc) => Raise e (set_letter_counts lc (set_wordbank wb s))
  | Ok _ (wb, lc) =>
      let tbl := across_table lc in
      if decide (n = 0) then
        let wb' := map (λ r, add_inplace n (add_across n tbl (add_repeat n r))) wb in
        Raise TypeError (set_letter_counts lc (set_wordbank wb' s))
      else
        let wb' := map (λ r, add_scores n (add_across n tbl (add_repeat n r))) wb in
        Ok tt (set_letter_counts lc (set_wordbank wb' s))
  end.

(** *** reset *)

(** The frame read from the packaged word list: column [word], and
    [no_green_word] a copy of it. *)
Definition read_row (w : str) : row := Row w w [] [] [] [] 0 0 0.

(** [pd.read_csv(stream, header=None)] on the packaged file
    [data/sgb.txt], which is not part of the sources: [data] is the list of
    its lines, each a word of letters or empty. Blank lines are skipped,
    and a file that holds no other line raises EmptyDataError. Lines that
    [read_csv] would not read as one text cell (digits, separators,
    quotes, blanks, a file of nothing but [true] and [false] or [inf]) are
    outside this model: [plain_words] below excludes them. *)
Definition read_csv (data : list str) : res (list str) :=
  match filter (λ w, w ≠ []) data with
  | [] => Throw EmptyDataError
  | lines => Ret lines
  end.

(** The lines of lowercase letters that [pd.read_csv] reads as a missing
    value (NaN) and not as text. *)
Definition na_values : list str := [py "nan"; py "null"].

(** [reset(self)]; [data] is the content of the packaged file. When
    [read_csv] raises, nothing has been assigned. A line that is one of
    [na_values] is read as NaN, a float: the first [x[i]] of
    [wordbank_features] (or, with [n_letters = 0], its line 100) raises
    TypeError on the frame that holds it; the frame left behind is shown
    with the line's text for the NaN. *)
Definition reset (data : list str) (s : solver) : outcome solver unit :=
  match read_csv data with
  | Throw e => Raise e s
  | Ret lines =>
      let s1 := set_green_letters ∅ (set_wordbank (map read_row lines) s) in
      if decide (Exists (λ w, w ∈ na_values) lines)
      then Raise TypeError (set_letter_counts [] s1)
      else
        match wordbank_features s1 with
        | Raise e s2 => Raise e s2
        | Ok _ s2 => Ok tt (set_results [] (set_guesses [] s2))
        end
  end.

(** [__init__]: the attributes are set and [reset] is called. *)
Definition init (data : list str) (n : nat) (sc : str) (v : bool)
    : outcome solver unit :=
  reset data (Solver n sc v [] ∅ [] [] []).

(** *** guess *)

(** [DataFrame.sort_values(by=col, ascending=False)] with pandas' default
    [kind='quicksort']: the rows come back rearranged, by decreasing value
    of the column. pandas documents that only [kind='mergesort'] and
    [kind='stable'] keep rows of equal value in their order, so the order
    among equal values is not part of the interface. *)
Class SortValues := {
  sort_values : (row → nat) → list row → list row;
  sort_values_perm : ∀ by_ wb, sort_values by_ wb ≡ₚ wb;
  sort_values_desc : ∀ by_ wb, Sorted (λ a b, by_ b ≤ by_ a) (sort_values by_ wb)
}.

(** The column [f'{self.score}_score'], when the frame has it. *)
Definition score_column (sc : str) : option (row → nat) :=
  if decide (sc = py "inplace") then Some inplace_score
  else if decide (sc = py "across") then Some across_score
  else if decide (sc = py "combined") then Some combined_score
  else None.

(** [guess(self)], on a frame that has its three score columns:
    [.iloc[0,0]] is the [word] of the first sorted row. On a frame that a
    raise of [load_result] has left without them, [sort_values] raises
    KeyError whatever the mode. *)
Definition guess `{SortValues} (s : solver) : outcome solver str :=
  match score_column (score s) with
  | None => Raise KeyError s
  | Some by_ =>
      match sort_values by_ (wordbank s) with
      | [] => Raise IndexError s
      | r :: _ =>
          let guess := word r in
          Ok guess (set_guesses (guesses s ++ [guess]) s)
      end
  end.

(** *** load_result *)

(** [self.wordbank[key_cols]] (line 121), on a frame that has its letter
    columns: the count, repeat and across columns and the three scores are
    dropped, which the row shows as empty lists and zeros. They are there
    again once [wordbank_features] has returned; [scored] below names the
    frames that have them. *)
Definition key_cols (r : row) : row :=
  Row (word r) (no_green_word r) (letter r) [] [] [] 0 0 0.

(** [str.slice_replace(i, i+1, '_')] on [no_green_word]. *)
Definition slice_replace (i : nat) (r : row) : row :=
  Row (word r) (take i (no_green_word r) ++ "_" :: drop (S i) (no_green_word r))
    (letter r) (count r) (repeat r) (across r)
    (inplace_score r) (across_score r) (combined_score r).

(** The hard-mode filtering loop over [enumerate(zip(last_guess, result))];
    [n] is the number of letter columns of the frame, the state is the
    frame, whether it still has its columns ([cols]), and
    [self.green_letters].

    The mask of the K branch is [Series.apply] of a Python function: on a
    frame without rows it is an empty Series of dtype object, not of
    booleans, and [df[...]] with it selects columns, none of them. The frame
    is then left without any column, and the next step that reads
    [no_green_word] or a letter column raises KeyError. The mask of the G
    branch is a comparison and that of the last branch a conjunction with
    one: they are boolean also when the frame is empty, and select rows. *)
Fixpoint filter_loop (n i : nat) (zipped : list (ascii * ascii))
    (wb : list row) (cols : bool) (green : gmap nat ascii)
    : outcome (list row * bool * gmap nat ascii) unit :=
  match zipped with
  | [] => Ok tt (wb, cols, green)
  | (g, r) :: rest =>
      if decide (is_Some (green !! i)) then filter_loop n (S i) rest wb cols green
      else if negb cols then Raise KeyError (wb, cols, green)
      else if decide (r = "G") then
        if decide (i < n) then
          filter_loop n (S i) rest
            (map (slice_replace i) (filter (λ x, letter x !! i = Some g) wb))
            true (<[i := g]> green)
        else Raise KeyError (wb, cols, green)
      else if decide (r = "K") then
        match wb with
        | [] => filter_loop n (S i) rest [] false green
        | _ :: _ =>
            filter_loop n (S i) rest (filter (λ x, g ∉ no_green_word x) wb)
              true green
        end
      else
        if decide (i < n) then
          filter_loop n (S i) rest
            (filter (λ x, g ∈ no_green_word x ∧ letter x !! i ≠ Some g) wb)
            true green
        else Raise KeyError (wb, cols, green)
  end.

(** [load_result(self, result)], on a frame that has its key columns. When
    the loop has left the frame without columns, line 51 of
    [wordbank_features] raises KeyError. *)
Definition load_result (result : str) (s : solver) : outcome solver unit :=
  let s1 := set_results (results s ++ [result]) s in
  match last (guesses s) with
  | None => Raise IndexError s1
  | Some last_guess =>
      match filter_loop (n_letters s) 0 (zip last_guess result)
              (map key_cols (wordbank s)) true (green_letters s) with
      | Raise e (wb, _, green) =>
          Raise e (set_green_letters green (set_wordbank wb s1))
      | Ok _ (wb, cols, green) =>
          let s2 := set_green_letters green (set_wordbank wb s1) in
          if cols then wordbank_features s2 else Raise KeyError s2
      end
  end.

(** One round of externally driven play: the guess [g] is recorded in
    [self.guesses] and the feedback [fb] for it is loaded. *)
Definition play (g fb : str) (s : solver) : outcome solver unit :=
  load_result fb (set_guesses (guesses s ++ [g]) s).

End HardMode.

(** * Properties *)

(** ** The scorer against the two-pass multiset algorithm *)

Example result_speed_erase :
  Simulator._result (py "speed") (py "erase") = Ret (py "YKKYY").
Proof. reflexivity. Qed.

Example score_speed_erase :
  map ScorerSpec.encode (ScorerSpec.score (py "speed") (py "erase")) = py "YKKYY".
Proof. vm_compute. reflexivity. Qed.

Section scorer_refinement.
Import Simulator ScorerSpec.

(** What ties the blanked copy of the hidden word to the multiset: every
    letter other than the blank occurs as often in the one as in the
    other. *)
Definition agree (filtered_word : str) (M : gmultiset ascii) : Prop :=
  ∀ c, c ≠ "_" → multiplicity c (list_to_set_disj filtered_word) = multiplicity c M.

(** The result template after the first loop: G where pass 1 marked the
    position, the guessed letter elsewhere. *)
Definition template (g : ascii) (m : option symbol) : ascii :=
  match m with Some sy => encode sy | None => g end.

(** The positions pass 1 left unmarked, counted from [i]. *)
Fixpoint unmarked (i : nat) (marks : list (option symbol)) : list nat :=
  match marks with
  | [] => []
  | Some _ :: ms => unmarked (S i) ms
  | None :: ms => i :: unmarked (S i) ms
  end.

Lemma is_lower_not_blank c : is_lower c → c ≠ "_".
Proof.
  intros Hc ->. unfold is_lower in Hc.
  change (nat_of_ascii "_") with 95 in Hc. lia.
Qed.

Lemma getitem_middle (pre : str) c rest :
  getitem (pre ++ c :: rest) (length pre) = Ret c.
Proof. unfold getitem. by rewrite list_lookup_middle. Qed.

Lemma insert_middle (pre : str) c d rest :
  <[length pre := d]> (pre ++ c :: rest) = pre ++ d :: rest.
Proof.
  rewrite insert_app_r_alt by lia. by rewrite Nat.sub_diag.
Qed.

Lemma pass1_length hidden guess M :
  length hidden = length guess →
  length (pass1 hidden guess M).1 = length guess.
Proof.
  revert guess M. induction hidden as [|h hs IH]; intros [|g gs] M Hlen;
    simplify_eq/=; [done|].
  case_decide.
  - specialize (IH gs (M ∖ {[+ g +]}) Hlen).
    destruct (pass1 hs gs (M ∖ {[+ g +]})); simpl in *; lia.
  - specialize (IH gs M Hlen). destruct (pass1 hs gs M); simpl in *; lia.
Qed.

Lemma agree_blank_green Fpre (w : ascii) rest M :
  agree (Fpre ++ w :: rest) M →
  agree (Fpre ++ "_" :: rest) (M ∖ {[+ w +]}).
Proof.
  intros Hag c Hc. specialize (Hag c Hc). revert Hag.
  rewrite !list_to_set_disj_app, !list_to_set_disj_cons.
  rewrite multiplicity_difference, !multiplicity_disj_union, !multiplicity_singleton.
  repeat case_decide; simplify_eq; lia.
Qed.

Lemma list_to_set_disj_insert (fw : str) y a b :
  fw !! y = Some a →
  list_to_set_disj (<[y := b]> fw) ⊎ {[+ a +]}
    =@{gmultiset ascii} list_to_set_disj fw ⊎ {[+ b +]}.
Proof.
  revert y. induction fw as [|x fw IH]; intros [|y] Hy; simplify_eq/=.
  - multiset_solver.
  - specialize (IH y Hy). multiset_solver.
Qed.

Lemma agree_blank_yellow fw y (g : ascii) M :
  fw !! y = Some g → agree fw M →
  agree (<[y := "_"]> fw) (M ∖ {[+ g +]}).
Proof.
  intros Hy Hag c Hc. specialize (Hag c Hc).
  pose proof (list_to_set_disj_insert fw y g "_" Hy) as Heq.
  apply (f_equal (multiplicity c)) in Heq. revert Heq.
  rewrite multiplicity_difference, !multiplicity_disj_union, !multiplicity_singleton.
  repeat case_decide; simplify_eq; lia.
Qed.

(** The first loop, started anywhere inside the two words. *)
Lemma green_pass_spec rest_g : ∀ rest_w wpre Rpre Fpre ng M,
  length rest_g = length rest_w →
  length Rpre = length wpre → length Fpre = length wpre →
  agree (Fpre ++ rest_w) M →
  ∃ F,
    green_pass (wpre ++ rest_w) (length wpre) rest_g
      (Rpre ++ rest_g, Fpre ++ rest_w, ng)
    = Ret (Rpre ++ zip_with template rest_g (pass1 rest_w rest_g M).1,
           Fpre ++ F,
           ng ++ unmarked (length wpre) (pass1 rest_w rest_g M).1)
    ∧ agree (Fpre ++ F) (pass1 rest_w rest_g M).2.
Proof.
  induction rest_g as [|g gs IH]; intros [|w ws] wpre Rpre Fpre ng M Hlen HR HF Hag;
    simplify_eq/=.
  { exists []. rewrite !app_nil_r in *. done. }
  destruct (decide (g = w)) as [->|Hgw].
  - destruct (IH ws (wpre ++ [w]) (Rpre ++ ["G"]) (Fpre ++ ["_"]) ng (M ∖ {[+ w +]}))
      as (F & Hrun & Hag'); [done|by rewrite !length_app, HR|by rewrite !length_app, HF|..].
    { rewrite <- app_assoc. by apply agree_blank_green. }
    revert Hrun Hag'. rewrite <- !app_assoc, length_app, Nat.add_1_r. simpl.
    destruct (pass1 ws gs (M ∖ {[+ w +]})) as [fb M']. simpl.
    intros Hrun Hag'. exists ("_" :: F).
    rewrite getitem_middle, decide_True by done.
    replace (length wpre) with (length Rpre) at 2 by done.
    replace (length wpre) with (length Fpre) at 2 by done.
    rewrite !insert_middle. by rewrite Hrun.
  - destruct (IH ws (wpre ++ [w]) (Rpre ++ [g]) (Fpre ++ [w]) (ng ++ [length wpre]) M)
      as (F & Hrun & Hag'); [done|by rewrite !length_app, HR|by rewrite !length_app, HF|..].
    { by rewrite <- app_assoc. }
    revert Hrun Hag'. rewrite <- !app_assoc, length_app, Nat.add_1_r. simpl.
    destruct (pass1 ws gs M) as [fb M']. simpl.
    intros Hrun Hag'. exists (w :: F).
    rewrite getitem_middle, decide_False by done.
    by rewrite Hrun.
Qed.

(** The second loop, started anywhere inside the guess. *)
Lemma yellow_pass_spec rest_g : ∀ marks gpre Rpre fw M,
  length marks = length rest_g → length Rpre = length gpre →
  Forall (λ c, c ≠ "_") rest_g → agree fw M →
  ∃ fw',
    yellow_pass (gpre ++ rest_g) (unmarked (length gpre) marks)
      (Rpre ++ zip_with template rest_g marks, fw)
    = Ret (Rpre ++ map encode (pass2 rest_g marks M), fw').
Proof.
  induction rest_g as [|g gs IH]; intros [|m ms] gpre Rpre fw M Hlen HR Hnb Hag;
    simplify_eq/=.
  { by exists fw. }
  apply Forall_cons in Hnb as [Hg Hnb].
  assert (Hnext : ∀ Rx fx Mx, agree fx Mx → ∃ fw',
    yellow_pass (gpre ++ g :: gs) (unmarked (S (length gpre)) ms)
      (Rpre ++ Rx :: zip_with template gs ms, fx)
    = Ret (Rpre ++ Rx :: map encode (pass2 gs ms Mx), fw')).
  { intros Rx fx Mx Hx.
    destruct (IH ms (gpre ++ [g]) (Rpre ++ [Rx]) fx Mx) as (fw' & Hrun);
      [done|by rewrite !length_app, HR|done|done|].
    revert Hrun. rewrite <- !app_assoc, length_app, Nat.add_1_r. simpl. eauto. }
  destruct m as [sy|]; simpl.
  { by apply Hnext. }
  assert (Hins : ∀ d rest, <[length gpre := d]> (Rpre ++ g :: rest) = Rpre ++ d :: rest).
  { intros d rest. rewrite <- HR. apply insert_middle. }
  rewrite getitem_middle, !Hins.
  pose proof (Hag g Hg) as Hmul.
  case_decide as Hin.
  - destruct (list_find (λ c, g = c) fw) as [[y c]|] eqn:Hfind.
    2:{ apply list_find_None in Hfind. rewrite Forall_forall in Hfind.
        by destruct (Hfind g Hin). }
    apply list_find_Some in Hfind as (Hy & <- & _).
    assert (0 < multiplicity g M) as Hpos.
    { rewrite <- Hmul. apply elem_of_multiplicity. by apply elem_of_list_to_set_disj. }
    rewrite decide_True by done.
    by apply Hnext, agree_blank_yellow.
  - assert (multiplicity g M = 0) as HM0.
    { rewrite <- Hmul. destruct (multiplicity g (list_to_set_disj fw)) eqn:E; [done|].
      destruct Hin. apply elem_of_list_to_set_disj. apply elem_of_multiplicity.
      rewrite E. lia. }
    rewrite decide_False by lia.
    by apply Hnext.
Qed.

(** The scorer is the two-pass algorithm as soon as the guess holds no
    blank; the words need not be lowercase otherwise. *)
Lemma result_score_no_blank hidden guess :
  length hidden = length guess →
  Forall (λ c, c ≠ "_") guess →
  _result hidden guess = Ret (map encode (score hidden guess)).
Proof.
  intros Hlen Hnb. unfold _result, score.
  destruct (green_pass_spec guess hidden [] [] [] [] (list_to_set_disj hidden))
    as (F & Hrun & Hag); [done..|].
  pose proof (pass1_length hidden guess (list_to_set_disj hidden) Hlen) as Hml.
  simpl in Hrun, Hag. rewrite Hrun.
  destruct (pass1 hidden guess (list_to_set_disj hidden)) as [marks M]. simpl in *.
  destruct (yellow_pass_spec guess marks [] [] F M) as (fw' & Hrun2); [done..|].
  simpl in Hrun2. by rewrite Hrun2.
Qed.

End scorer_refinement.

(** C2. For hidden and guess two lowercase words of equal length,
    [_result] returns the feedback of the reference algorithm of the
    specification: pass 1 marks EXACT where the letters agree and takes one
    occurrence out of the multiset of the hidden word's letters, pass 2
    goes left to right over the other positions and marks PRESENT, taking
    one occurrence out, when the multiset still has the guessed letter,
    and ABSENT otherwise. *)
Theorem result_refines_score (hidden guess : str) :
  length hidden = length guess →
  lowercase hidden → lowercase guess →
  Simulator._result hidden guess
  = Ret (map ScorerSpec.encode (ScorerSpec.score hidden guess)).
Proof.
  intros Hlen _ Hg. apply result_score_no_blank; [done|].
  eapply Forall_impl; [exact Hg|]. intros c. apply is_lower_not_blank.
Qed.

Lemma result_refines_score_witness :
  Simulator._result (py "those") (py "geese")
  = Ret (map ScorerSpec.encode (ScorerSpec.score (py "those") (py "geese"))).
Proof.
  apply (result_refines_score (py "those") (py "geese")).
  - reflexivity.
  - unfold lowercase. repeat constructor; unfold is_lower; simpl; lia.
  - unfold lowercase. repeat constructor; unfold is_lower; simpl; lia.
Defined.

(** ** The simulator past its last allowed guess *)

Section simulator_exhausted.
Import Simulator.

(** One call when [max_guesses] guesses have already been made. *)
Lemma guess_exhausted s w :
  (max_guesses s ≤ n_guesses s)%Z →
  guess s w
  = Ok (py "XXXXX")
      (Sim (word s) (n_guesses s + 1) (max_guesses s) (results s)
         (unicode_results s) (alpha_blocks_results s) (done s) (verbose s)
         (chosen_alphabet s)).
Proof.
  intros Hmax. unfold guess.
  rewrite (decide_False (P := (n_guesses s + 1 = max_guesses s)%Z)) by lia.
  rewrite (decide_False (P := (n_guesses s + 1 ≤ max_guesses s)%Z)) by lia.
  reflexivity.
Qed.

End simulator_exhausted.

(** C10. Once [max_guesses] guesses have been made, so that a call takes
    the count past [max_guesses], every further call of
    [WordleSimulator.guess] returns the five-letter constant XXXXX whatever
    the length of the word, appends nothing to [results],
    [unicode_results] and [alpha_blocks_results], and still adds one to
    [n_guesses]. *)
Theorem guess_past_max_guesses (ws : list str) (s : Simulator.simulator) :
  (Simulator.max_guesses s ≤ Simulator.n_guesses s)%Z →
  ∃ s',
    Simulator.guesses s ws = Ok (replicate (length ws) (py "XXXXX")) s'
    ∧ length (py "XXXXX") = 5
    ∧ Simulator.results s' = Simulator.results s
    ∧ Simulator.unicode_results s' = Simulator.unicode_results s
    ∧ Simulator.alpha_blocks_results s' = Simulator.alpha_blocks_results s
    ∧ Simulator.n_guesses s' = (Simulator.n_guesses s + Z.of_nat (length ws))%Z
    ∧ Simulator.max_guesses s' = Simulator.max_guesses s.
Proof.
  revert s. induction ws as [|w ws IH]; intros s Hmax.
  - exists s. simpl. repeat split; try done. lia.
  - simpl. rewrite guess_exhausted by done.
    edestruct IH as (s' & -> & _ & Hr & Hu & Ha & Hn & Hm); [simpl; lia|].
    exists s'. simpl in *. repeat split; try done. lia.
Qed.

Lemma guess_past_max_guesses_witness :
  ∃ s',
    Simulator.guesses
      (Simulator.Sim (py "ratio") 6 6 [py "KKKKK"] [] [] true false
         (Simulator.Alphabet [] [] []))
      [py "ratio"; py "Arise"]
    = Ok [py "XXXXX"; py "XXXXX"] s'
    ∧ Simulator.results s' = [py "KKKKK"]
    ∧ Simulator.n_guesses s' = 8%Z.
Proof.
  destruct (guess_past_max_guesses [py "ratio"; py "Arise"]
              (Simulator.Sim (py "ratio") 6 6 [py "KKKKK"] [] [] true false
                 (Simulator.Alphabet [] [] [])))
    as (s' & Hrun & _ & Hr & _ & _ & Hn & _).
  - simpl. lia.
  - exists s'. repeat split; [exact Hrun|exact Hr|exact Hn].
Defined.

(** ** Lengths in the scorer *)

Section scorer_lengths.
Import Simulator.

(** The first loop raises as soon as the guess runs past the word. *)
Lemma green_pass_long rest : ∀ word i st,
  i ≤ length word → length word < i + length rest →
  green_pass word i rest st = Throw IndexError.
Proof.
  induction rest as [|g rest IH]; intros word i [[R F] NG] Hi Hlen;
    simpl in *; [lia|].
  unfold getitem. destruct (word !! i) as [w|] eqn:Hw; [|done].
  apply lookup_lt_Some in Hw.
  case_decide; apply IH; lia.
Qed.

(** The first loop on a guess that fits in the word: the template keeps
    its length and the indices kept aside are positions of the guess. *)
Lemma green_pass_fits rest : ∀ word i R F NG,
  i + length rest ≤ length word →
  Forall (λ j, j < i) NG →
  ∃ R' F' NG',
    green_pass word i rest (R, F, NG) = Ret (R', F', NG')
    ∧ length R' = length R
    ∧ Forall (λ j, j < i + length rest) NG'.
Proof.
  induction rest as [|g rest IH]; intros word i R F NG Hlen HNG; simpl in *.
  { exists R, F, NG. by rewrite Nat.add_0_r. }
  unfold getitem. destruct (word !! i) as [w|] eqn:Hw.
  2:{ apply lookup_ge_None in Hw. lia. }
  case_decide.
  - destruct (IH word (S i) (<[i:="G"]> R) (<[i:="_"]> F) NG) as (R' & F' & NG' & -> & HR & HN).
    { lia. }
    { eapply Forall_impl; [done|]. simpl. lia. }
    exists R', F', NG'. rewrite HR, length_insert. split_and!; [done..|].
    by replace (i + S (length rest)) with (S i + length rest) by lia.
  - destruct (IH word (S i) R F (NG ++ [i])) as (R' & F' & NG' & -> & HR & HN).
    { lia. }
    { apply Forall_app. split; [|by repeat constructor].
      eapply Forall_impl; [done|]. simpl. lia. }
    exists R', F', NG'. split_and!; [done..|].
    by replace (i + S (length rest)) with (S i + length rest) by lia.
Qed.

(** The second loop never raises on positions of the guess. *)
Lemma yellow_pass_fits NG : ∀ guess R F,
  Forall (λ j, j < length guess) NG →
  ∃ R' F', yellow_pass guess NG (R, F) = Ret (R', F') ∧ length R' = length R.
Proof.
  induction NG as [|i NG IH]; intros guess R F HNG; simpl.
  { by exists R, F. }
  apply Forall_cons in HNG as [Hi HNG].
  unfold getitem. destruct (guess !! i) as [g|] eqn:Hg.
  2:{ apply lookup_ge_None in Hg. lia. }
  case_decide as Hin.
  - destruct (list_find (λ c, g = c) F) as [[y c]|] eqn:Hfind.
    2:{ apply list_find_None in Hfind. rewrite Forall_forall in Hfind.
        by destruct (Hfind g Hin). }
    destruct (IH guess (<[i:="Y"]> R) (<[y:="_"]> F) HNG) as (R' & F' & -> & HR).
    exists R', F'. by rewrite HR, length_insert.
  - destruct (IH guess (<[i:="K"]> R) F HNG) as (R' & F' & -> & HR).
    exists R', F'. by rewrite HR, length_insert.
Qed.

Lemma result_fits word guess :
  length guess ≤ length word →
  ∃ fb, _result word guess = Ret fb ∧ length fb = length guess.
Proof.
  intros Hlen. unfold _result.
  destruct (green_pass_fits guess word 0 guess word []) as (R & F & NG & -> & HR & HN);
    [done|constructor|].
  destruct (yellow_pass_fits NG guess R F HN) as (R' & F' & -> & HR').
  exists R'. split; [done|congruence].
Qed.

Lemma result_long word guess :
  length word < length guess → _result word guess = Throw IndexError.
Proof.
  intros Hlen. unfold _result. rewrite green_pass_long; [done|lia|done].
Qed.

End scorer_lengths.

(** ** List facts used below *)

Lemma Forall_map_iff {A B} (P : B → Prop) (f : A → B) (l : list A) :
  Forall P (map f l) ↔ Forall (λ x, P (f x)) l.
Proof.
  induction l as [|x l IH]; simpl; [by split; constructor|].
  rewrite !Forall_cons, IH. done.
Qed.

Lemma map_id_ext {A} (f : A → A) (l : list A) :
  (∀ x, f x = x) → map f l = l.
Proof.
  intros Hf. induction l as [|x l IH]; simpl; [done|]. by rewrite Hf, IH.
Qed.

Lemma elem_of_map_iff {A B} (f : A → B) (l : list A) (y : B) :
  y ∈ map f l ↔ ∃ x, y = f x ∧ x ∈ l.
Proof.
  rewrite list_elem_of_In, in_map_iff.
  split; intros (x & Hx & Hin); exists x; split; try done;
    by apply list_elem_of_In.
Qed.

(** ** The hard-mode solver: what the recomputation of features keeps *)

Section features_frame.
Import HardMode.

Lemma apply_length {A B} (f : A → res B) col ys :
  apply f col = Ret ys → length ys = length col.
Proof.
  revert ys. induction col as [|x col IH]; intros ys Hrun; simpl in *.
  { by simplify_eq. }
  destruct (f x); [|done]. destruct (apply f col); [|done].
  simplify_eq. simpl. by rewrite (IH _ eq_refl).
Qed.

Lemma zip_with_add_letter_word (cnt : ascii → nat) wb : ∀ col,
  length col = length wb →
  map word (zip_with (λ r c, add_letter r c (cnt c)) wb col) = map word wb
  ∧ map no_green_word (zip_with (λ r c, add_letter r c (cnt c)) wb col)
    = map no_green_word wb.
Proof.
  induction wb as [|r wb IH]; intros [|c col] Hlen; simplify_eq/=; [done|].
  destruct (IH col Hlen) as [-> ->]. done.
Qed.

(** The first loop of [wordbank_features] adds columns and touches
    neither the rows nor their words, whether it returns or raises. *)
Lemma letter_loop_words green ps : ∀ wb lc,
  map word (final (letter_loop green ps wb lc)).1 = map word wb
  ∧ map no_green_word (final (letter_loop green ps wb lc)).1 = map no_green_word wb.
Proof.
  induction ps as [|i ps IH]; intros wb lc; simpl; [done|].
  destruct (green !! i).
  - destruct (IH (map (λ r, add_letter r "_" 0) wb) (lc ++ [∅])) as [-> ->].
    by rewrite !map_map.
  - destruct (apply _ wb) as [col|] eqn:Hcol; [|done].
    apply apply_length in Hcol.
    destruct (IH (zip_with (λ r c, add_letter r c (default 0 (Counter col !! c))) wb col)
                (lc ++ [Counter col])) as [-> ->].
    by apply (zip_with_add_letter_word (λ c, default 0 (Counter col !! c))).
Qed.

(** [wordbank_features] leaves the pool, the masked words and every
    attribute other than the frame and the counters as they were. *)
Lemma wordbank_features_frame s :
  let s' := final (wordbank_features s) in
  pool s' = pool s
  ∧ map no_green_word (wordbank s') = map no_green_word (wordbank s)
  ∧ green_letters s' = green_letters s
  ∧ guesses s' = guesses s ∧ results s' = results s
  ∧ n_letters s' = n_letters s ∧ score s' = score s.
Proof.
  unfold wordbank_features, pool.
  pose proof (letter_loop_words (green_letters s) (seq 0 (n_letters s))
                (map key_row (wordbank s)) []) as [Hw Hn].
  rewrite !map_map in Hw, Hn. simpl in Hw, Hn.
  destruct (letter_loop _ _ _ _) as [[] [wb lc]|e [wb lc]]; simpl in *.
  - case_decide; simpl; by rewrite !map_map.
  - done.
Qed.

Lemma filter_loop_length n zipped : ∀ i wb cols green,
  length (final (filter_loop n i zipped wb cols green)).1.1 ≤ length wb.
Proof.
  induction zipped as [|[g r] zipped IH]; intros i wb cols green; simpl; [done|].
  case_decide; [apply IH|].
  destruct cols; simpl; [|done].
  case_decide.
  { case_decide; [|done]. etrans; [apply IH|].
    rewrite length_map. apply length_filter. }
  case_decide.
  { destruct wb as [|x wb]; (etrans; [apply IH|]); [done|apply length_filter]. }
  case_decide; [|done]. etrans; [apply IH|]. apply length_filter.
Qed.

End features_frame.

(** C5. Whatever the state and the feedback, and whether the call returns
    or raises, [load_result] leaves a candidate pool with at most as many
    words as it found: the pool never grows. *)
Theorem load_result_monotone (result : str) (s : HardMode.solver) :
  length (HardMode.pool (final (HardMode.load_result result s)))
  ≤ length (HardMode.pool s).
Proof.
  unfold HardMode.load_result.
  destruct (last (HardMode.guesses s)) as [last_guess|]; [|done].
  pose proof (filter_loop_length (HardMode.n_letters s) (zip last_guess result) 0
                (map HardMode.key_cols (HardMode.wordbank s)) true
                (HardMode.green_letters s)) as Hlen.
  rewrite length_map in Hlen.
  destruct (HardMode.filter_loop _ _ _ _ _ _)
    as [[] [[wb cols] green]|e [[wb cols] green]]; simpl in *.
  2:{ unfold HardMode.pool. simpl. by rewrite !length_map. }
  destruct cols.
  - destruct (wordbank_features_frame
                (HardMode.set_green_letters green
                   (HardMode.set_wordbank wb
                      (HardMode.set_results (HardMode.results s ++ [result]) s))))
      as (-> & _).
    unfold HardMode.pool. simpl. by rewrite !length_map.
  - unfold HardMode.pool. simpl. by rewrite !length_map.
Qed.

(** ** The feature columns in closed form *)

Section features_closed_form.
Import HardMode.

(** The letter column [letter_{i+1}] of a word: blank at a green position. *)
Definition letter_of (green : gmap nat ascii) (w : str) (i : nat) : ascii :=
  match green !! i with
  | Some _ => "_"
  | None => default "_" (w !! i)
  end.

(** The letters that the words of the pool have at position [i]. *)
Definition column (words : list str) (i : nat) : list ascii :=
  map (λ w, default "_" (w !! i)) words.

(** [self.letter_counts[f'letter_{i+1}']]. *)
Definition counter_of (green : gmap nat ascii) (words : list str) (i : nat)
    : gmap ascii nat :=
  match green !! i with
  | Some _ => ∅
  | None => Counter (column words i)
  end.

(** The column [count_{i+1}] of a word. *)
Definition count_of (green : gmap nat ascii) (words : list str) (w : str)
    (i : nat) : nat :=
  default 0 (counter_of green words i !! letter_of green w i).

(** The row with the letter and count columns of the positions [ps] added. *)
Definition extend (green : gmap nat ascii) (words : list str) (ps : list nat)
    (r : row) : row :=
  Row (word r) (no_green_word r)
    (letter r ++ map (letter_of green (word r)) ps)
    (count r ++ map (count_of green words (word r)) ps)
    (repeat r) (across r) (inplace_score r) (across_score r) (combined_score r).

(** The columns computed row by row once the letters are there. *)
Definition finish (n : nat) (tbl : gmap ascii nat) (r : row) : row :=
  add_scores n (add_across n tbl (add_repeat n r)).

Lemma apply_getitem i wb :
  Forall (λ r, i < length (word r)) wb →
  apply (λ r, getitem (word r) i) wb
  = Ret (map (λ r, default "_" (word r !! i)) wb).
Proof.
  induction 1 as [|r wb Hr _ IH]; simpl; [done|].
  unfold getitem at 1. destruct (word r !! i) as [c|] eqn:Hc.
  - by rewrite IH.
  - apply lookup_ge_None in Hc. lia.
Qed.

Lemma zip_with_map_same {A B C} (f : A → B → C) (h : A → B) l :
  zip_with f l (map h l) = map (λ x, f x (h x)) l.
Proof. induction l as [|x l IH]; simpl; [done|]. by rewrite IH. Qed.

Lemma letter_loop_step green i ps wb lc :
  Forall (λ r, i < length (word r)) wb →
  letter_loop green (i :: ps) wb lc
  = letter_loop green ps
      (map (λ r, add_letter r (letter_of green (word r) i)
                   (count_of green (map word wb) (word r) i)) wb)
      (lc ++ [counter_of green (map word wb) i]).
Proof.
  intros Hlen. simpl. unfold count_of, counter_of, letter_of.
  destruct (green !! i).
  - done.
  - rewrite apply_getitem by done. rewrite zip_with_map_same.
    unfold column. by rewrite map_map.
Qed.

Lemma extend_nil green words r : extend green words [] r = r.
Proof. destruct r. unfold extend. simpl. by rewrite !app_nil_r. Qed.

Lemma extend_cons green words i ps r :
  extend green words ps
    (add_letter r (letter_of green (word r) i) (count_of green words (word r) i))
  = extend green words (i :: ps) r.
Proof. unfold extend, add_letter. simpl. by rewrite <- !app_assoc. Qed.

(** With words long enough for the positions visited, the first loop of
    [wordbank_features] returns, and this is what it has built. *)
Lemma letter_loop_spec green ps : ∀ wb lc,
  Forall (λ r, Forall (λ i, i < length (word r)) ps) wb →
  letter_loop green ps wb lc
  = Ok tt (map (extend green (map word wb) ps) wb,
           lc ++ map (counter_of green (map word wb)) ps).
Proof.
  induction ps as [|i ps IH]; intros wb lc Hlen.
  { simpl. rewrite app_nil_r. f_equal. f_equal.
    rewrite <- (map_id wb) at 1. apply map_ext. intros r.
    by rewrite extend_nil. }
  rewrite letter_loop_step.
  2:{ eapply Forall_impl; [done|]. intros r Hr. by apply Forall_cons in Hr as [? _]. }
  rewrite IH.
  2:{ apply Forall_map_iff. eapply Forall_impl; [done|]. intros r Hr. simpl.
      by apply Forall_cons in Hr as [_ ?]. }
  rewrite !map_map. simpl. rewrite <- app_assoc. simpl.
  f_equal. f_equal. apply map_ext. intros r. apply extend_cons.
Qed.

(** [wordbank_features] returns when there is a position to look at and
    every word of the pool has at least [n_letters] letters, and the frame
    it leaves is this one. *)
Lemma wordbank_features_ok s :
  0 < n_letters s →
  Forall (λ w, n_letters s ≤ length w) (pool s) →
  let n := n_letters s in
  let lc := map (counter_of (green_letters s) (pool s)) (seq 0 n) in
  wordbank_features s
  = Ok tt
      (set_letter_counts lc
         (set_wordbank
            (map (λ r, finish n (across_table lc)
                         (extend (green_letters s) (pool s) (seq 0 n) (key_row r)))
               (wordbank s))
            s)).
Proof.
  intros Hpos Hlen. unfold wordbank_features.
  rewrite letter_loop_spec.
  2:{ apply Forall_map_iff. unfold pool in Hlen.
      apply (Forall_map_iff (λ w, n_letters s ≤ length w) word) in Hlen.
      eapply Forall_impl; [done|]. intros r Hr. simpl in *.
      apply Forall_forall. intros i Hi%elem_of_seq. lia. }
  rewrite decide_False by lia.
  rewrite !map_map. simpl. unfold pool, finish.
  do 2 f_equal.
Qed.


End features_closed_form.

(** ** The filtering loop *)

Section filtering.
Import HardMode.

Lemma map_word_slice_replace i wb :
  map word (map (slice_replace i) wb) = map word wb.
Proof. by rewrite map_map. Qed.

(** The loop only ever drops rows: a word it leaves was there before. *)
Lemma filter_loop_words n zipped : ∀ i wb cols green w,
  w ∈ map word (final (filter_loop n i zipped wb cols green)).1.1 →
  w ∈ map word wb.
Proof.
  induction zipped as [|[g r] zipped IH]; intros i wb cols green w; simpl; [done|].
  assert (Hsub : ∀ (P : row → Prop) `{!∀ x, Decision (P x)},
            w ∈ map word (filter P wb) → w ∈ map word wb).
  { intros P ? (x & -> & Hx%list_elem_of_filter)%elem_of_map_iff.
    apply elem_of_map_iff. exists x. by destruct Hx. }
  destruct cols; simpl; repeat case_decide; simpl; try done.
  - intros Hw%IH. done.
  - intros Hw%IH. rewrite map_word_slice_replace in Hw. by eapply Hsub.
  - destruct wb as [|x wb]; intros Hw%IH; [done|]. by eapply Hsub.
  - intros Hw%IH. by eapply Hsub.
  - intros Hw%IH. done.
Qed.

(** The feedback is on record after the call, returned or raised. *)
Lemma load_result_results result s :
  results (final (load_result result s)) = results s ++ [result].
Proof.
  unfold load_result. destruct (last (guesses s)); [|done].
  destruct (filter_loop _ _ _ _ _ _) as [[] [[wb cols] green]|e [[wb cols] green]];
    [|done].
  destruct cols; [|done].
  by destruct (wordbank_features_frame
    (set_green_letters green (set_wordbank wb
       (set_results (results s ++ [result]) s)))) as (_ & _ & _ & _ & -> & _).
Qed.

End filtering.

(** ** Frames that have their columns *)

(** A state is complete when [wordbank_features] would return and change
    nothing: the frame has every column, filled from the pool, the locked
    positions and [n_letters] as they are. The state that a return of
    [wordbank_features] leaves is complete; a state in which a raise has
    left the frame without some of its columns is not. *)
Definition complete (s : HardMode.solver) : Prop :=
  HardMode.wordbank_features s = Ok tt s.

Section complete_frames.
Import HardMode.

Lemma complete_positive s : complete s → 0 < n_letters s.
Proof.
  unfold complete, wordbank_features.
  destruct (letter_loop _ _ _ _) as [[] [wb lc]|e [wb lc]]; [|done].
  case_decide; [done|]. lia.
Qed.

(** [wordbank_features] reads [n_letters], the frame and the locked
    positions, and neither of the two histories. *)
Lemma wordbank_features_reads s1 s2 :
  n_letters s1 = n_letters s2 → wordbank s1 = wordbank s2 →
  green_letters s1 = green_letters s2 →
  raised (wordbank_features s1) = raised (wordbank_features s2)
  ∧ wordbank (final (wordbank_features s1)) = wordbank (final (wordbank_features s2))
  ∧ green_letters (final (wordbank_features s1))
    = green_letters (final (wordbank_features s2)).
Proof.
  intros Hn Hwb Hg. unfold wordbank_features. rewrite Hn, Hwb, Hg.
  destruct (letter_loop _ _ _ _) as [[] [wb lc]|e [wb lc]]; [|done].
  by case_decide.
Qed.

Lemma wordbank_features_histories gs rs s :
  wordbank_features (set_results rs (set_guesses gs s))
  = match wordbank_features s with
    | Ok a s' => Ok a (set_results rs (set_guesses gs s'))
    | Raise e s' => Raise e (set_results rs (set_guesses gs s'))
    end.
Proof.
  unfold wordbank_features. simpl.
  destruct (letter_loop _ _ _ _) as [[] [wb lc]|e [wb lc]]; [|done].
  by case_decide.
Qed.

Lemma complete_histories gs rs s :
  complete s → complete (set_results rs (set_guesses gs s)).
Proof.
  unfold complete. intros Hs. by rewrite wordbank_features_histories, Hs.
Qed.

Lemma complete_guesses gs s : complete s → complete (set_guesses gs s).
Proof.
  intros Hs. apply (complete_histories gs (results s)) in Hs.
  by destruct s.
Qed.

(** The state that [wordbank_features] returns is complete. *)
Lemma wordbank_features_fixed s :
  0 < n_letters s →
  Forall (λ w, n_letters s ≤ length w) (pool s) →
  ∃ s', wordbank_features s = Ok tt s' ∧ complete s'.
Proof.
  intros Hpos Hlen. eexists. split; [by apply wordbank_features_ok|].
  unfold complete. rewrite wordbank_features_ok; [|done|].
  2:{ unfold pool. simpl. by rewrite map_map. }
  unfold pool. simpl. rewrite !map_map. simpl.
  unfold set_letter_counts, set_wordbank. simpl.
  do 2 f_equal.
Qed.

End complete_frames.

(** ** A filter that leaves no candidate *)





(** ** Soundness of the filter *)

(** A pool that holds the hidden word [those] and the guess [geese]. *)
Definition those_geese : HardMode.solver :=
  final (HardMode.init [py "those"; py "geese"] 5 (py "across") false).

(** A pool that holds the hidden word [beech] and the guess [eerie]. *)
Definition beech_sedan : HardMode.solver :=
  final (HardMode.init [py "beech"; py "sedan"; py "eerie"] 5 (py "across") false).

(** C1 at a failing input. The hidden word is [beech] and the guess is
    [eerie]: the scorer answers YGKKK, which is consistent with the hidden
    word by construction, and [load_result] returns with the pool [sedan],
    which has lost the hidden word. The K of position 4 stands for the
    third [e] of the guess, the hidden word having two; it is read as "no
    [e] at a position that is not locked", and [beech] has one at
    position 2. *)
Theorem load_result_drops_hidden_word :
  py "beech" ∈ HardMode.pool beech_sedan
  ∧ Simulator._result (py "beech") (py "eerie") = Ret (py "YGKKK")
  ∧ raised (HardMode.play (py "eerie") (py "YGKKK") beech_sedan) = None
  ∧ HardMode.pool (final (HardMode.play (py "eerie") (py "YGKKK") beech_sedan))
    = [py "sedan"]
  ∧ py "beech" ∉ HardMode.pool
                   (final (HardMode.play (py "eerie") (py "YGKKK") beech_sedan)).
Proof.
  split_and!.
  - vm_compute. apply list_elem_of_here.
  - vm_compute. reflexivity.
  - vm_compute. reflexivity.
  - vm_compute. reflexivity.
  - vm_compute. intros [Hne|Hin]%elem_of_cons; [discriminate|].
    by apply elem_of_nil in Hin.
Qed.

(** The same loss when the K comes before the G of its letter: with the
    hidden word [those] and the guess [geese] the scorer answers KKKGG. The
    K of position 1 is read against a copy of the word in which the green
    [e] of position 4 is not blanked yet, and drops [those]; the frame is
    empty from there on, the K of position 2 leaves it without columns and
    the G of position 3 raises KeyError. *)
Lemma load_result_drops_hidden_word_raises :
  Simulator._result (py "those") (py "geese") = Ret (py "KKKGG")
  ∧ HardMode.pool those_geese = [py "those"; py "geese"]
  ∧ raised (HardMode.play (py "geese") (py "KKKGG") those_geese) = Some KeyError
  ∧ HardMode.pool (final (HardMode.play (py "geese") (py "KKKGG") those_geese)) = [].
Proof. vm_compute. done. Qed.

(** ** reset *)

(** The claim C8 fails here: with [n_letters] set to 4 the five-letter
    words of the list are all loaded, none is filtered out. *)
Lemma reset_keeps_other_lengths :
  let data := [py "ratio"; py "arise"] in
  let s := final (HardMode.reset data (HardMode.Solver 4 (py "across") false [] ∅ [] [] [])) in
  HardMode.pool s = [py "ratio"; py "arise"]
  ∧ filter (λ w, length w = 4) data = [].
Proof. vm_compute. done. Qed.

(** The lines of lowercase letters that [pd.read_csv] may read as
    something else than text: the missing values, and the numbers and
    booleans that make a column of floats or of booleans when no line of
    the file is text. *)
Definition reserved_words : list str :=
  HardMode.na_values ++ [py "inf"; py "infinity"; py "true"; py "false"].

(** A word list that [pd.read_csv] reads as one column of text, line by
    line: it is not empty, and every line is a word of lowercase letters
    that is not reserved. *)
Definition plain_words (data : list str) : Prop :=
  data ≠ []
  ∧ Forall (λ w, w ≠ [] ∧ lowercase w ∧ w ∉ reserved_words) data.

Lemma plain_words_read data :
  plain_words data →
  HardMode.read_csv data = Ret data
  ∧ ¬ Exists (λ w, w ∈ HardMode.na_values) data.
Proof.
  intros [Hne Hall]. split.
  - unfold HardMode.read_csv.
    assert (Hsame : filter (λ w : str, w ≠ []) data = data).
    { clear Hne. induction Hall as [|w l (Hw & _) _ IH]; [done|].
      rewrite filter_cons_True by done. by rewrite IH. }
    rewrite Hsame. by destruct data.
  - intros (w & Hw & Hna)%Exists_exists.
    rewrite Forall_forall in Hall. destruct (Hall w Hw) as (_ & _ & Hres).
    apply Hres. unfold reserved_words. apply elem_of_app. by left.
Qed.

(** C8, as amended. [reset] loads the whole packaged word list, every
    word of it whatever its length, with [no_green_word] a copy of the
    word; it empties [green_letters], the guess history and the result
    history, and leaves the state a new solver with the same settings
    starts from. This is so when [n_letters] is 1 or more and the file is
    a list of plain words of [n_letters] letters or more. *)
Theorem reset_restores (data : list str) (s : HardMode.solver) :
  plain_words data →
  0 < HardMode.n_letters s →
  Forall (λ w, HardMode.n_letters s ≤ length w) data →
  ∃ s',
    HardMode.reset data s = Ok tt s'
    ∧ HardMode.init data (HardMode.n_letters s) (HardMode.score s)
        (HardMode.verbose s) = Ok tt s'
    ∧ HardMode.pool s' = data
    ∧ map HardMode.no_green_word (HardMode.wordbank s') = data
    ∧ HardMode.green_letters s' = ∅
    ∧ HardMode.guesses s' = []
    ∧ HardMode.results s' = [].
Proof.
  intros Hplain Hpos Hlen. unfold HardMode.init, HardMode.reset.
  destruct (plain_words_read data Hplain) as [-> Hna].
  rewrite !decide_False by done.
  assert (Hpool : ∀ s0, HardMode.pool (HardMode.set_green_letters ∅
            (HardMode.set_wordbank (map HardMode.read_row data) s0)) = data).
  { intros s0. unfold HardMode.pool. simpl. rewrite map_map. by apply map_id_ext. }
  rewrite !wordbank_features_ok by (done || by rewrite Hpool).
  rewrite !Hpool. simpl. eexists. split_and!; try done.
  - unfold HardMode.pool. simpl. rewrite !map_map. by apply map_id_ext.
  - simpl. rewrite !map_map. by apply map_id_ext.
Qed.

Lemma reset_restores_witness :
  ∃ s',
    HardMode.reset [py "ratio"; py "arise"] those_geese = Ok tt s'
    ∧ HardMode.pool s' = [py "ratio"; py "arise"]
    ∧ HardMode.guesses s' = [].
Proof.
  destruct (reset_restores [py "ratio"; py "arise"] those_geese)
    as (s' & Hrun & _ & Hpool & _ & _ & Hg & _).
  - apply (bool_decide_unpack _). vm_compute. exact I.
  - vm_compute. lia.
  - repeat constructor.
  - exists s'. split_and!; [exact Hrun|exact Hpool|exact Hg].
Defined.

(** What [reset] raises: EmptyDataError on a file without a word, TypeError
    on a file that holds a missing value or with [n_letters] at 0, and
    IndexError on a file that holds a word with less than [n_letters]
    letters. *)
Example reset_raises :
  raised (HardMode.reset [] those_geese) = Some EmptyDataError
  ∧ raised (HardMode.reset [[]; []] those_geese) = Some EmptyDataError
  ∧ HardMode.pool (final (HardMode.reset [] those_geese)) = HardMode.pool those_geese
  ∧ raised (HardMode.reset [py "ratio"; py "null"] those_geese) = Some TypeError
  ∧ raised (HardMode.init [py "ratio"; py "arise"] 0 (py "across") false)
    = Some TypeError
  ∧ raised (HardMode.init [py "ratio"; py "rat"] 5 (py "across") false)
    = Some IndexError.
Proof. vm_compute. done. Qed.

(** ** Lengths that disagree *)

(** The claim C4 fails here: a guess shorter than the hidden word is
    scored without a raise, and a feedback shorter than the guess is
    loaded without a raise, the pool and the histories being changed. *)
Lemma length_mismatch_not_raised :
  Simulator._result (py "ratio") (py "rat") = Ret (py "GGG")
  ∧ let s := final (HardMode.init [py "ratio"; py "arise"] 5 (py "across") false) in
    raised (HardMode.play (py "ratio") (py "GG") s) = None
    ∧ HardMode.pool s = [py "ratio"; py "arise"]
    ∧ HardMode.pool (final (HardMode.play (py "ratio") (py "GG") s)) = [py "ratio"]
    ∧ HardMode.results (final (HardMode.play (py "ratio") (py "GG") s)) = [py "GG"].
Proof. vm_compute. done. Qed.

Lemma zip_common_prefix {A B} (l : list A) : ∀ (k : list B),
  zip (take (length l `min` length k) l) (take (length l `min` length k) k)
  = zip l k.
Proof.
  induction l as [|x l IH]; intros [|y k]; simpl; try done.
  by rewrite IH.
Qed.

(** C4, as amended. Neither call compares lengths. [_result], which has
    no state to change, raises IndexError when the guess is longer than
    the hidden word and only then: a guess that is shorter, or of the
    same length, gets a feedback of its own length. [load_result] puts
    the feedback on record before anything else, in every outcome, and
    reads the positions that guess and feedback have in common and no
    other: what it raises if it raises, the pool and the locked positions
    it leaves are those of the call on the guess and the feedback cut to
    their common length. *)
Theorem lengths_unchecked :
  (∀ word guess : str,
     length guess ≤ length word →
     ∃ fb, Simulator._result word guess = Ret fb ∧ length fb = length guess)
  ∧ (∀ word guess : str,
       length word < length guess →
       Simulator._result word guess = Throw IndexError)
  ∧ (∀ (result last_guess : str) (s : HardMode.solver),
       last (HardMode.guesses s) = Some last_guess →
       let m := length last_guess `min` length result in
       let o := HardMode.load_result result s in
       let o' := HardMode.play (take m last_guess) (take m result) s in
       raised o = raised o'
       ∧ HardMode.pool (final o) = HardMode.pool (final o')
       ∧ HardMode.green_letters (final o) = HardMode.green_letters (final o'))
  ∧ (∀ (result : str) (s : HardMode.solver),
       HardMode.results (final (HardMode.load_result result s))
       = HardMode.results s ++ [result]).
Proof.
  split_and!.
  - apply result_fits.
  - apply result_long.
  - intros result last_guess s Hlast m o o'. subst o o'.
    unfold HardMode.play, HardMode.load_result. simpl.
    rewrite last_snoc, Hlast. unfold m. rewrite zip_common_prefix.
    destruct (HardMode.filter_loop _ _ _ _ _ _)
      as [[] [[wb cols] green]|e [[wb cols] green]]; [|done].
    destruct cols; [|done].
    match goal with
    | |- raised (HardMode.wordbank_features ?s1)
         = raised (HardMode.wordbank_features ?s2) ∧ _ =>
        destruct (wordbank_features_reads s1 s2) as (Hr & Hwb & Hg); try done
    end.
    unfold HardMode.pool. by rewrite Hr, Hwb, Hg.
  - apply load_result_results.
Qed.

Lemma lengths_unchecked_witness :
  (∃ fb, Simulator._result (py "ratio") (py "rat") = Ret fb ∧ length fb = 3)
  ∧ Simulator._result (py "rat") (py "ratio") = Throw IndexError
  ∧ raised (HardMode.load_result (py "GG")
              (HardMode.set_guesses [py "geese"] those_geese))
    = raised (HardMode.play (py "ge") (py "GG")
                (HardMode.set_guesses [py "geese"] those_geese)).
Proof.
  destruct lengths_unchecked as (Hfit & Hlong & Hload & _).
  split_and!.
  - apply (Hfit (py "ratio") (py "rat")). vm_compute. lia.
  - apply (Hlong (py "rat") (py "ratio")). vm_compute. lia.
  - apply (Hload (py "GG") (py "geese")
             (HardMode.set_guesses [py "geese"] those_geese)).
    reflexivity.
Defined.

(** ** Ranking: the word that guess returns *)

Section ranking.
Import HardMode.

(** The three ranking modes for which the frame has a score column. *)
Definition ranking_modes : list str := [py "inplace"; py "across"; py "combined"].

Lemma score_column_modes sc :
  sc ∈ ranking_modes → is_Some (score_column sc).
Proof.
  unfold ranking_modes, score_column. rewrite !elem_of_cons, elem_of_nil.
  intros [->|[->|[->|[]]]]; vm_compute; eauto.
Qed.

(** The row that comes first in the frame among those of largest score. *)
Fixpoint first_max (by_ : row → nat) (wb : list row) : option row :=
  match wb with
  | [] => None
  | r :: wb' =>
      match first_max by_ wb' with
      | None => Some r
      | Some m => if decide (by_ m ≤ by_ r) then Some r else Some m
      end
  end.

(** Insertion in a list sorted by decreasing score, ahead of the rows whose
    score is not larger. *)
Fixpoint insert_desc (by_ : row → nat) (x : row) (l : list row) : list row :=
  match l with
  | [] => [x]
  | y :: l' =>
      if decide (by_ y ≤ by_ x) then x :: y :: l' else y :: insert_desc by_ x l'
  end.

(** A stable sort by decreasing score, as [kind='stable'] would give. *)
Definition stable_sort (by_ : row → nat) (wb : list row) : list row :=
  foldr (insert_desc by_) [] wb.

Lemma insert_desc_perm by_ x l : insert_desc by_ x l ≡ₚ x :: l.
Proof.
  induction l as [|y l IH]; simpl; [done|].
  case_decide; [done|]. rewrite IH. apply Permutation_swap.
Qed.

Lemma insert_desc_sorted by_ x l :
  Sorted (λ a b, by_ b ≤ by_ a) l →
  Sorted (λ a b, by_ b ≤ by_ a) (insert_desc by_ x l).
Proof.
  induction 1 as [|y l Hl IH Hhd]; simpl.
  { by repeat constructor. }
  case_decide as Hxy.
  - by repeat constructor.
  - constructor; [done|].
    destruct Hhd as [|z l Hz]; simpl in *.
    + constructor. lia.
    + case_decide; constructor; lia.
Qed.

Lemma stable_sort_perm by_ wb : stable_sort by_ wb ≡ₚ wb.
Proof.
  induction wb as [|r wb IH]; simpl; [done|].
  by rewrite insert_desc_perm, IH.
Qed.

Lemma stable_sort_sorted by_ wb :
  Sorted (λ a b, by_ b ≤ by_ a) (stable_sort by_ wb).
Proof.
  induction wb as [|r wb IH]; simpl; [constructor|].
  by apply insert_desc_sorted.
Qed.

(** The stable sort puts the first row of largest score at the head. *)
Lemma stable_sort_head by_ wb : head (stable_sort by_ wb) = first_max by_ wb.
Proof.
  induction wb as [|r wb IH]; simpl; [done|].
  rewrite <- IH. destruct (stable_sort by_ wb) as [|m l]; simpl; [done|].
  by case_decide.
Qed.

(** A sort that meets the interface of [sort_values], which shows that the
    interface can be met; it keeps rows of equal score in their order,
    which the sort of pandas is not known to do. *)
Definition stable_sort_values : SortValues :=
  {| sort_values := stable_sort;
     sort_values_perm := stable_sort_perm;
     sort_values_desc := stable_sort_sorted |}.

(** The head of a list sorted by decreasing score has the largest score. *)
Lemma sorted_desc_head by_ (r : row) l r' :
  Sorted (λ a b, by_ b ≤ by_ a) (r :: l) → r' ∈ r :: l → by_ r' ≤ by_ r.
Proof.
  intros Hs Hin.
  assert (Transitive (λ a b : row, by_ b ≤ by_ a)) by (intros a b c; lia).
  apply Sorted_StronglySorted in Hs; [|done].
  apply StronglySorted_inv in Hs as [_ Hall].
  apply elem_of_cons in Hin as [->|Hin]; [done|].
  rewrite Forall_forall in Hall. by apply Hall.
Qed.

(** What [guess] returns under any sort that meets the interface. *)
Lemma guess_returns_max `{SortValues} s by_ :
  score_column (score s) = Some by_ →
  wordbank s ≠ [] →
  ∃ r, r ∈ wordbank s
       ∧ (∀ r', r' ∈ wordbank s → by_ r' ≤ by_ r)
       ∧ guess s = Ok (word r) (set_guesses (guesses s ++ [word r]) s).
Proof.
  intros Hby Hne. unfold guess. rewrite Hby.
  pose proof (sort_values_perm by_ (wordbank s)) as Hperm.
  pose proof (sort_values_desc by_ (wordbank s)) as Hsorted.
  destruct (sort_values by_ (wordbank s)) as [|r l].
  { symmetry in Hperm. by apply Permutation_nil_r in Hperm. }
  exists r. split_and!; [|intros r' Hr'|done].
  - rewrite <- Hperm. apply list_elem_of_here.
  - eapply sorted_desc_head; [done|]. by rewrite Hperm.
Qed.

(** Under a stable sort the word returned is that of the first row of
    largest score. *)
Lemma guess_stable_first_max s by_ :
  score_column (score s) = Some by_ →
  returned (@guess stable_sort_values s) = word <$> first_max by_ (wordbank s).
Proof.
  intros Hby. unfold guess. rewrite Hby. simpl.
  rewrite <- stable_sort_head. by destruct (stable_sort by_ (wordbank s)).
Qed.

End ranking.

(** X22. With a complete frame that has rows and one of the three
    ranking modes, [guess] returns the word of a row of the frame whose score for
    that mode is the largest, and puts it on the guess history. Which of
    several rows of largest score is returned is left to [sort_values],
    which is called with its default kind. *)
Theorem guess_max_score (sv : HardMode.SortValues) (s : HardMode.solver) :
  complete s →
  HardMode.wordbank s ≠ [] →
  HardMode.score s ∈ ranking_modes →
  ∃ by_ r,
    HardMode.score_column (HardMode.score s) = Some by_
    ∧ r ∈ HardMode.wordbank s
    ∧ (∀ r', r' ∈ HardMode.wordbank s → by_ r' ≤ by_ r)
    ∧ HardMode.guess s
      = Ok (HardMode.word r)
          (HardMode.set_guesses (HardMode.guesses s ++ [HardMode.word r]) s).
Proof.
  intros _ Hne [by_ Hby]%score_column_modes.
  destruct (guess_returns_max s by_ Hby Hne) as (r & Hr & Hmax & Hrun).
  by exists by_, r.
Qed.

Lemma guess_max_score_witness :
  ∃ by_ r,
    HardMode.score_column (py "across") = Some by_
    ∧ r ∈ HardMode.wordbank those_geese
    ∧ (∀ r', r' ∈ HardMode.wordbank those_geese → by_ r' ≤ by_ r)
    ∧ returned (@HardMode.guess stable_sort_values those_geese)
      = Some (HardMode.word r).
Proof.
  destruct (guess_max_score stable_sort_values those_geese)
    as (by_ & r & Hby & Hr & Hmax & Hrun).
  - vm_compute. reflexivity.
  - vm_compute. discriminate.
  - vm_compute. apply list_elem_of_further, list_elem_of_here.
  - exists by_, r. split_and!; [exact Hby|exact Hr|exact Hmax|].
    rewrite Hrun. reflexivity.
Defined.



(** ** The across score counts every distinct letter once *)

Section counters.
Import HardMode.

(** A [Counter] holds, for a letter, the number of its occurrences. *)
Lemma Counter_lookup_from col : ∀ (m : gmap ascii nat) c,
  default 0 (foldl (λ m x, <[x := S (default 0 (m !! x))]> m) m col !! c)
  = default 0 (m !! c) + length (filter (λ x, x = c) col).
Proof.
  induction col as [|x col IH]; intros m c; simpl; [lia|].
  rewrite IH. destruct (decide (x = c)) as [->|Hne].
  - rewrite lookup_insert_eq, filter_cons_True by done. simpl. lia.
  - rewrite lookup_insert_ne, filter_cons_False by done. lia.
Qed.

Lemma Counter_lookup col c :
  default 0 (Counter col !! c) = length (filter (λ x, x = c) col).
Proof. unfold Counter. by rewrite Counter_lookup_from, lookup_empty. Qed.

(** Summing one counter into [across] adds its count to each letter. *)
Lemma map_fold_add_count (tbl m : gmap ascii nat) c :
  default 0 (map_fold add_count tbl m !! c)
  = default 0 (tbl !! c) + default 0 (m !! c).
Proof.
  apply (map_fold_weak_ind
    (λ r m, default 0 (r !! c) = default 0 (tbl !! c) + default 0 (m !! c))).
  { rewrite lookup_empty. simpl. lia. }
  intros l k m' r Hl IH. unfold add_count.
  destruct (decide (l = c)) as [->|Hne].
  - rewrite Hl in IH. simpl in IH.
    destruct (r !! c) as [x|] eqn:Hr; rewrite !lookup_insert_eq; simpl in *; lia.
  - destruct (r !! l); rewrite !lookup_insert_ne by done; done.
Qed.

Lemma across_table_from lc : ∀ (tbl : gmap ascii nat) c,
  default 0 (foldl (λ across letter_count, map_fold add_count across letter_count)
               tbl lc !! c)
  = default 0 (tbl !! c) + sum_list (map (λ m, default 0 (m !! c)) lc).
Proof.
  induction lc as [|m lc IH]; intros tbl c; simpl; [lia|].
  rewrite IH, map_fold_add_count. lia.
Qed.

(** The [across] dictionary holds, for a letter, the sum of its counts
    over the positions. *)
Lemma across_table_lookup lc c :
  default 0 (across_table lc !! c) = sum_list (map (λ m, default 0 (m !! c)) lc).
Proof.
  unfold across_table. rewrite across_table_from.
  destruct (decide ("_" = c)) as [<-|Hne].
  - by rewrite lookup_singleton_eq.
  - by rewrite lookup_singleton_ne.
Qed.

End counters.

(** The quantities that the specification of [across_score] speaks of. *)

(** The letter of a word at a position (blank past its end). *)
Definition letter_at (w : str) (i : nat) : ascii := default "_" (w !! i).

(** The non-locked positions, left to right. *)
Definition unlocked (green : gmap nat ascii) (n : nat) : list nat :=
  filter (λ i, green !! i = None) (seq 0 n).

(** The number of candidates that have the letter [c] at position [i]. *)
Definition position_frequency (words : list str) (i : nat) (c : ascii) : nat :=
  length (filter (λ w, w !! i = Some c) words).

(** The across-position frequency of a letter: its position frequencies
    summed over the non-locked positions. *)
Definition across_frequency (green : gmap nat ascii) (n : nat)
    (words : list str) (c : ascii) : nat :=
  sum_list (map (λ i, position_frequency words i c) (unlocked green n)).

(** Position [i] is the leftmost non-locked occurrence of its letter. *)
Definition leftmost (green : gmap nat ascii) (w : str) (i : nat) : Prop :=
  Forall (λ j, green !! j = None → w !! j ≠ w !! i) (seq 0 i).

Global Instance leftmost_dec green w i : Decision (leftmost green w i).
Proof. unfold leftmost. apply _. Defined.

(** The positions that count for the across score of a word, and the
    letters found there. *)
Definition counted_positions (green : gmap nat ascii) (n : nat) (w : str)
    : list nat :=
  filter (leftmost green w) (unlocked green n).

Definition counted_letters (green : gmap nat ascii) (n : nat) (w : str)
    : list ascii :=
  map (letter_at w) (counted_positions green n w).

(** The across score as the specification words it. *)
Definition across_score_once (green : gmap nat ascii) (n : nat)
    (words : list str) (w : str) : nat :=
  sum_list (map (across_frequency green n words) (counted_letters green n w)).

Lemma column_count (ws : list str) i c :
  Forall (λ w, i < length w) ws →
  length (filter (λ x, x = c) (column ws i)) = position_frequency ws i c.
Proof.
  unfold column, position_frequency.
  induction 1 as [|w ws Hw _ IH]; simpl; [done|].
  destruct (w !! i) as [x|] eqn:Hx.
  2:{ apply lookup_ge_None in Hx. lia. }
  simpl. rewrite !filter_cons, Hx.
  destruct (decide (x = c)) as [->|Hne].
  - rewrite decide_True by done. simpl. by rewrite IH.
  - rewrite decide_False by congruence. done.
Qed.

Lemma position_frequency_blank (ws : list str) i :
  Forall lowercase ws → position_frequency ws i "_" = 0.
Proof.
  unfold position_frequency.
  induction 1 as [|w ws Hw _ IH]; simpl; [done|].
  rewrite filter_cons_False; [done|].
  intros Hin%list_elem_of_lookup_2.
  unfold lowercase in Hw. rewrite Forall_forall in Hw.
  by apply (is_lower_not_blank "_" (Hw _ Hin)).
Qed.

Section across_score_once_facts.
Import HardMode.
Context (green : gmap nat ascii) (n : nat) (words : list str).
Hypothesis words_long : Forall (λ w, n ≤ length w) words.
Hypothesis words_lower : Forall lowercase words.

Lemma sum_list_filter {A} (P : A → Prop) `{!∀ x, Decision (P x)}
    (f : A → nat) (l : list A) :
  sum_list (map f (filter P l))
  = sum_list (map (λ x, if decide (P x) then f x else 0) l).
Proof.
  induction l as [|x l IH]; simpl; [done|].
  rewrite filter_cons. destruct (decide (P x)); simpl; by rewrite IH.
Qed.

Lemma sum_list_map_ext {A} (f g : A → nat) (l : list A) :
  (∀ x, x ∈ l → f x = g x) → sum_list (map f l) = sum_list (map g l).
Proof.
  induction l as [|x l IH]; intros Hfg; simpl; [done|].
  rewrite Hfg by apply list_elem_of_here.
  rewrite IH; [done|]. intros y Hy. apply Hfg. by apply list_elem_of_further.
Qed.

Lemma lookup_map_seq {A} (f : nat → A) i :
  i < n → map f (seq 0 n) !! i = Some (f i).
Proof.
  intros Hi. change (map f (seq 0 n)) with (f <$> seq 0 n).
  by rewrite list_lookup_fmap, lookup_seq_lt.
Qed.

(** The counter of a position, read at a letter. *)
Lemma counter_of_lookup i c :
  i < n →
  default 0 (counter_of green words i !! c)
  = if decide (green !! i = None) then position_frequency words i c else 0.
Proof.
  intros Hi. unfold counter_of. destruct (green !! i) eqn:Hg.
  - by rewrite decide_False.
  - rewrite decide_True by done. rewrite Counter_lookup, column_count; [done|].
    eapply Forall_impl; [exact words_long|]. simpl. lia.
Qed.

(** The [across] dictionary of the frame holds the across frequencies. *)
Lemma across_table_frequency c :
  default 0 (across_table (map (counter_of green words) (seq 0 n)) !! c)
  = across_frequency green n words c.
Proof.
  rewrite across_table_lookup, map_map. unfold across_frequency, unlocked.
  rewrite sum_list_filter. apply sum_list_map_ext.
  intros i Hi%elem_of_seq. apply counter_of_lookup. lia.
Qed.

(** No candidate holds a blank, so the blank has frequency zero. *)
Lemma across_frequency_blank : across_frequency green n words "_" = 0.
Proof.
  unfold across_frequency.
  rewrite (sum_list_map_ext _ (λ _, 0)).
  { induction (unlocked green n); simpl; done. }
  intros i _. by apply position_frequency_blank.
Qed.

End across_score_once_facts.

(** The across score of a finished row, as a sum over the positions. *)

Section across_score_code.
Import HardMode.

Lemma zip_with_map_map {A B C D} (f : B → C → D) (g : A → B) (h : A → C) l :
  zip_with f (map g l) (map h l) = map (λ x, f (g x) (h x)) l.
Proof. induction l as [|x l IH]; simpl; [done|]. by rewrite IH. Qed.

Lemma repeat_column n letters :
  take n (false :: map (repeat_at letters) (seq 1 (n - 1)))
  = map (repeat_at letters) (seq 0 n).
Proof.
  destruct n as [|n]; simpl; [done|].
  rewrite Nat.sub_0_r. f_equal.
  apply take_ge. by rewrite length_map, length_seq.
Qed.

Lemma across_score_finish n tbl green words r :
  across_score (finish n tbl (extend green words (seq 0 n) (key_row r)))
  = sum_list
      (map (λ i, if repeat_at (map (letter_of green (word r)) (seq 0 n)) i
                 then 0
                 else default 0 (tbl !! letter_of green (word r) i))
         (seq 0 n)).
Proof.
  unfold finish, add_scores, add_across, add_repeat, extend, key_row. simpl.
  rewrite repeat_column.
  rewrite (take_ge (map (letter_of green (word r)) (seq 0 n)))
    by (by rewrite length_map, length_seq).
  rewrite (take_ge (map _ (map _ _)))
    by (by rewrite !length_map, length_seq).
  rewrite map_map, zip_with_map_map. done.
Qed.

End across_score_code.

Section across_score_word.
Import HardMode.
Context (green : gmap nat ascii) (n : nat) (words : list str) (w : str).
Hypothesis words_long : Forall (λ w, n ≤ length w) words.
Hypothesis words_lower : Forall lowercase words.
Hypothesis w_long : n ≤ length w.
Hypothesis w_lower : lowercase w.

Lemma lookup_letter_at i : i < n → w !! i = Some (letter_at w i).
Proof.
  intros Hi. unfold letter_at. destruct (w !! i) eqn:Hw; [done|].
  apply lookup_ge_None in Hw. lia.
Qed.

Lemma letter_at_not_blank i : i < n → letter_at w i ≠ "_".
Proof.
  intros Hi. apply is_lower_not_blank.
  unfold lowercase in w_lower. rewrite Forall_forall in w_lower.
  apply w_lower. eapply list_elem_of_lookup_2. by apply lookup_letter_at.
Qed.

Lemma letter_of_unlocked i : green !! i = None → letter_of green w i = letter_at w i.
Proof. intros Hg. unfold letter_of. by rewrite Hg. Qed.

(** At a non-locked position the repeat flag is set exactly when the
    position is not the leftmost non-locked occurrence of its letter. *)
Lemma repeat_at_leftmost i :
  i < n → green !! i = None →
  repeat_at (map (letter_of green w) (seq 0 n)) i
  = bool_decide (¬ leftmost green w i).
Proof.
  intros Hi Hg. destruct (decide (leftmost green w i)) as [Hl|Hl].
  - rewrite bool_decide_eq_false_2 by tauto.
    apply not_true_is_false. unfold repeat_at.
    intros (j & Hj%in_seq & Hb%bool_decide_eq_true)%existsb_exists.
    rewrite !lookup_map_seq in Hb by lia. simplify_eq.
    rewrite (letter_of_unlocked i) in Hb by done.
    unfold leftmost in Hl. rewrite Forall_forall in Hl.
    assert (Hjs : j ∈ seq 0 i) by (apply elem_of_seq; lia).
    specialize (Hl j Hjs). unfold letter_of in Hb.
    destruct (green !! j) eqn:Hgj.
    + by apply (letter_at_not_blank i).
    + apply Hl; [done|]. rewrite (lookup_letter_at i), (lookup_letter_at j) by lia.
      f_equal. exact Hb.
  - rewrite bool_decide_eq_true_2 by done.
    unfold leftmost in Hl. apply not_Forall_Exists in Hl; [|apply _].
    apply Exists_exists in Hl as (j & Hj%elem_of_seq & Hnot). simpl in Hnot.
    unfold repeat_at. apply existsb_exists. exists j. split.
    { apply in_seq. lia. }
    apply bool_decide_eq_true. rewrite !lookup_map_seq by lia. f_equal.
    destruct (green !! j) eqn:Hgj.
    { destruct Hnot. intros; discriminate. }
    rewrite !letter_of_unlocked by done. unfold letter_at.
    destruct (decide (w !! j = w !! i)) as [->|Hne]; [done|].
    destruct Hnot. by intros _.
Qed.

(** The sum that [wordbank_features] computes is the across score of the
    specification. *)
Lemma across_score_code_once :
  sum_list
    (map (λ i, if repeat_at (map (letter_of green w) (seq 0 n)) i
               then 0
               else default 0
                      (across_table (map (counter_of green words) (seq 0 n))
                         !! letter_of green w i))
       (seq 0 n))
  = across_score_once green n words w.
Proof.
  unfold across_score_once, counted_letters, counted_positions, unlocked.
  rewrite map_map, !sum_list_filter.
  apply sum_list_map_ext. intros i Hi%elem_of_seq.
  rewrite (across_table_frequency green n words words_long).
  destruct (green !! i) eqn:Hg.
  - rewrite (decide_False (P := Some _ = None)) by done.
    unfold letter_of. rewrite Hg.
    rewrite (across_frequency_blank green n words words_lower).
    by destruct (repeat_at _ _).
  - rewrite (decide_True (P := None = None)) by done.
    rewrite repeat_at_leftmost by (done || lia).
    rewrite letter_of_unlocked by done.
    destruct (decide (leftmost green w i)).
    + by rewrite bool_decide_eq_false_2 by tauto.
    + by rewrite bool_decide_eq_true_2.
Qed.

End across_score_word.

(** The letters counted are the letters found at non-locked positions,
    each of them once. *)

Section counted_once.
Context (green : gmap nat ascii) (n : nat) (w : str).
Hypothesis w_long : n ≤ length w.

Lemma elem_of_counted_positions i :
  i ∈ counted_positions green n w
  ↔ i < n ∧ green !! i = None ∧ leftmost green w i.
Proof.
  unfold counted_positions, unlocked.
  rewrite !list_elem_of_filter, elem_of_seq. intuition lia.
Qed.

Lemma counted_letters_NoDup : NoDup (counted_letters green n w).
Proof.
  unfold counted_letters.
  change (NoDup (letter_at w <$> counted_positions green n w)).
  apply NoDup_fmap_2_strong.
  2:{ unfold counted_positions, unlocked. do 2 apply NoDup_filter. apply NoDup_seq. }
  assert (Hlt : ∀ i j, i < j →
            i ∈ counted_positions green n w → j ∈ counted_positions green n w →
            letter_at w i ≠ letter_at w j).
  { intros i j Hij (Hi & Hgi & _)%elem_of_counted_positions
      (Hj & _ & Hlj)%elem_of_counted_positions Heq.
    unfold leftmost in Hlj. rewrite Forall_forall in Hlj.
    apply (Hlj i); [apply elem_of_seq; lia|done|].
    rewrite (lookup_letter_at n w w_long i), (lookup_letter_at n w w_long j) by done.
    by rewrite Heq. }
  intros i j Hi Hj Heq.
  destruct (Nat.lt_trichotomy i j) as [Hij|[->|Hij]]; [|done|].
  - by destruct (Hlt i j Hij Hi Hj).
  - by destruct (Hlt j i Hij Hj Hi).
Qed.

Lemma elem_of_counted_letters c :
  c ∈ counted_letters green n w
  ↔ ∃ i, i < n ∧ green !! i = None ∧ w !! i = Some c.
Proof.
  unfold counted_letters. rewrite elem_of_map_iff. split.
  - intros (i & -> & (Hi & Hg & _)%elem_of_counted_positions).
    exists i. split_and!; [done..|]. by apply (lookup_letter_at n).
  - intros (i & Hi & Hg & Hc). revert Hi Hg Hc.
    induction (lt_wf i) as [i _ IH]. intros Hi Hg Hc.
    destruct (decide (leftmost green w i)) as [Hl|Hl].
    + exists i. split.
      * unfold letter_at. by rewrite Hc.
      * by apply elem_of_counted_positions.
    + unfold leftmost in Hl. apply not_Forall_Exists in Hl; [|apply _].
      apply Exists_exists in Hl as (j & Hj%elem_of_seq & Hnot). simpl in Hnot.
      destruct (green !! j) eqn:Hgj.
      { destruct Hnot. intros; discriminate. }
      destruct (decide (w !! j = w !! i)) as [Heq|Hne].
      2:{ destruct Hnot. by intros _. }
      apply (IH j); [lia|lia|done|congruence].
Qed.

End counted_once.

(** C7. After [wordbank_features], with [n_letters] at 1 or more and a
    frame whose rows are lowercase words of at least [n_letters] letters,
    the [across_score] of every candidate is
    the sum of the across-position frequencies of the letters found at
    its non-locked positions, every distinct letter being counted once,
    at its leftmost non-locked occurrence: the letters counted hold no
    letter twice, and they are exactly the letters that the word has at
    some non-locked position. *)
Theorem across_score_counts_once (s : HardMode.solver) :
  0 < HardMode.n_letters s →
  HardMode.pool s ≠ [] →
  Forall lowercase (HardMode.pool s) →
  Forall (λ w, HardMode.n_letters s ≤ length w) (HardMode.pool s) →
  ∃ s',
    HardMode.wordbank_features s = Ok tt s'
    ∧ HardMode.pool s' = HardMode.pool s
    ∧ Forall
        (λ r,
           let green := HardMode.green_letters s in
           let n := HardMode.n_letters s in
           let w := HardMode.word r in
           HardMode.across_score r = across_score_once green n (HardMode.pool s) w
           ∧ NoDup (counted_letters green n w)
           ∧ ∀ c, c ∈ counted_letters green n w
                  ↔ ∃ i, i < n ∧ green !! i = None ∧ w !! i = Some c)
        (HardMode.wordbank s').
Proof.
  intros Hpos _ Hlower Hlong. eexists. split; [by apply wordbank_features_ok|].
  split.
  { unfold HardMode.pool. simpl. rewrite map_map. done. }
  simpl. apply Forall_map_iff, Forall_forall. intros r Hr.
  assert (Hw : HardMode.word r ∈ HardMode.pool s).
  { apply elem_of_map_iff. by exists r. }
  rewrite Forall_forall in Hlower, Hlong.
  pose proof (Hlower _ Hw) as Hwl. pose proof (Hlong _ Hw) as Hwn.
  rewrite <- Forall_forall in Hlower, Hlong.
  change (HardMode.word (finish _ _ _)) with (HardMode.word r).
  split_and!.
  - rewrite across_score_finish. by apply across_score_code_once.
  - by apply counted_letters_NoDup.
  - intros c. by apply elem_of_counted_letters.
Qed.

Lemma across_score_counts_once_witness :
  ∃ s',
    HardMode.wordbank_features those_geese = Ok tt s'
    ∧ Forall
        (λ r, HardMode.across_score r
              = across_score_once ∅ 5 [py "those"; py "geese"] (HardMode.word r))
        (HardMode.wordbank s').
Proof.
  destruct (across_score_counts_once those_geese) as (s' & Hrun & _ & Hall).
  - vm_compute. lia.
  - vm_compute. discriminate.
  - change (HardMode.pool those_geese) with [py "those"; py "geese"].
    repeat constructor; unfold is_lower; simpl; lia.
  - change (HardMode.pool those_geese) with [py "those"; py "geese"].
    repeat constructor.
  - exists s'. split; [exact Hrun|].
    eapply Forall_impl; [exact Hall|]. intros r (Hr & _). exact Hr.
Defined.

(** The word [geese] in that pool: [e] is counted once, for 4, with [g]
    for 1 and [s] for 2. *)
Example across_score_geese :
  map HardMode.across_score (HardMode.wordbank those_geese) = [9; 7]
  ∧ counted_letters ∅ 5 (py "geese") = py "ges"
  ∧ map (across_frequency ∅ 5 [py "those"; py "geese"]) (py "ges") = [1; 4; 2].
Proof. vm_compute. done. Qed.

(** * Further properties of the two classes *)

(** ** The scorer: the shape of a feedback *)

Section scorer_shape.
Import Simulator ScorerSpec.

(** What the second loop may leave at a position, given its mark. *)
Definition mark_colour (m : option symbol) (c : ascii) : Prop :=
  match m with
  | Some sy => c = encode sy
  | None => c = "Y" ∨ c = "K"
  end.

Lemma pass1_marks hidden : ∀ guess M,
  (pass1 hidden guess M).1
  = zip_with (λ h g, if decide (g = h) then Some EXACT else None) hidden guess.
Proof.
  induction hidden as [|h hs IH]; intros [|g gs] M; simpl; try done.
  case_decide.
  - specialize (IH gs (M ∖ {[+ g +]})).
    destruct (pass1 hs gs (M ∖ {[+ g +]})). simpl in *. by rewrite IH.
  - specialize (IH gs M). destruct (pass1 hs gs M). simpl in *. by rewrite IH.
Qed.

(** The second loop writes Y or K at every position it visits and leaves
    the others alone; no hypothesis on the letters is needed. *)
Lemma yellow_pass_shape rest_g : ∀ marks gpre Rpre fw,
  length marks = length rest_g → length Rpre = length gpre →
  ∃ R' fw',
    yellow_pass (gpre ++ rest_g) (unmarked (length gpre) marks)
      (Rpre ++ zip_with template rest_g marks, fw)
    = Ret (Rpre ++ R', fw')
    ∧ Forall2 mark_colour marks R'.
Proof.
  induction rest_g as [|g gs IH]; intros [|m ms] gpre Rpre fw Hlen HR;
    simplify_eq/=.
  { exists [], fw. by split; [|constructor]. }
  assert (Hnext : ∀ Rx fx, mark_colour m Rx → ∃ R' fw',
    yellow_pass (gpre ++ g :: gs) (unmarked (S (length gpre)) ms)
      (Rpre ++ Rx :: zip_with template gs ms, fx)
    = Ret (Rpre ++ R', fw') ∧ Forall2 mark_colour (m :: ms) R').
  { intros Rx fx HRx.
    destruct (IH ms (gpre ++ [g]) (Rpre ++ [Rx]) fx) as (R' & fw' & Hrun & Hshape);
      [done|by rewrite !length_app, HR|].
    revert Hrun. rewrite <- !app_assoc, length_app, Nat.add_1_r. simpl.
    intros Hrun. exists (Rx :: R'), fw'. split; [done|by constructor]. }
  destruct m as [sy|]; simpl.
  { by apply Hnext. }
  assert (Hins : ∀ d rest, <[length gpre := d]> (Rpre ++ g :: rest) = Rpre ++ d :: rest).
  { intros d rest. rewrite <- HR. apply insert_middle. }
  rewrite getitem_middle, !Hins.
  case_decide as Hin.
  - destruct (list_find (λ c, g = c) fw) as [[y c]|] eqn:Hfind.
    2:{ apply list_find_None in Hfind. rewrite Forall_forall in Hfind.
        by destruct (Hfind g Hin). }
    apply Hnext. by left.
  - apply Hnext. by right.
Qed.

(** The feedback of [_result] on words of equal length, position by
    position. *)
Lemma result_shape hidden guess :
  length hidden = length guess →
  ∃ fb,
    _result hidden guess = Ret fb
    ∧ length fb = length guess
    ∧ ∀ i h g c,
        hidden !! i = Some h → guess !! i = Some g → fb !! i = Some c →
        if decide (g = h) then c = "G" else c = "Y" ∨ c = "K".
Proof.
  intros Hlen. unfold _result.
  destruct (green_pass_spec guess hidden [] [] [] [] (list_to_set_disj hidden))
    as (F & Hrun & _); [done..|].
  simpl in Hrun. rewrite Hrun. rewrite pass1_marks.
  set (marks := zip_with _ hidden guess).
  assert (Hml : length marks = length guess).
  { unfold marks. rewrite length_zip_with. lia. }
  destruct (yellow_pass_shape guess marks [] [] F Hml eq_refl)
    as (R' & fw' & Hrun2 & Hshape).
  simpl in Hrun2. rewrite Hrun2. exists R'. split_and!; [done| |].
  - apply Forall2_length in Hshape. lia.
  - intros i h g c Hh Hg Hc.
    assert (Hm : marks !! i = Some (if decide (g = h) then Some EXACT else None)).
    { unfold marks. rewrite lookup_zip_with, Hh. simpl. by rewrite Hg. }
    pose proof (Forall2_lookup_lr _ _ _ _ _ _ Hshape Hm Hc) as Hmc.
    by case_decide.
Qed.

End scorer_shape.

(** The letters of a feedback. *)
Lemma result_colours (hidden guess : str) :
  length hidden = length guess →
  ∃ fb,
    Simulator._result hidden guess = Ret fb
    ∧ length fb = length guess
    ∧ Forall (λ c, c = "G" ∨ c = "Y" ∨ c = "K") fb.
Proof.
  intros Hlen. destruct (result_shape hidden guess Hlen) as (fb & Hrun & Hl & Hpos).
  exists fb. split_and!; [done..|].
  apply Forall_lookup. intros i c Hc.
  assert (Hi : i < length guess) by (rewrite <- Hl; by eapply lookup_lt_Some).
  destruct (lookup_lt_is_Some_2 guess i Hi) as [g Hg].
  destruct (lookup_lt_is_Some_2 hidden i ltac:(lia)) as [h Hh].
  specialize (Hpos i h g c Hh Hg Hc). case_decide; [by left|by right].
Qed.

(** The green positions of a feedback. *)
Lemma result_green_positions (hidden guess : str) :
  length hidden = length guess →
  ∃ fb,
    Simulator._result hidden guess = Ret fb
    ∧ ∀ i, fb !! i = Some "G"
           ↔ ∃ c, guess !! i = Some c ∧ hidden !! i = Some c.
Proof.
  intros Hlen. destruct (result_shape hidden guess Hlen) as (fb & Hrun & Hl & Hpos).
  exists fb. split; [done|]. intros i. split.
  - intros Hc.
    assert (Hi : i < length guess) by (rewrite <- Hl; by eapply lookup_lt_Some).
    destruct (lookup_lt_is_Some_2 guess i Hi) as [g Hg].
    destruct (lookup_lt_is_Some_2 hidden i ltac:(lia)) as [h Hh].
    specialize (Hpos i h g "G" Hh Hg Hc). case_decide as Hgh.
    + subst. by exists h.
    + by destruct Hpos.
  - intros (c & Hg & Hh).
    assert (Hi : i < length fb) by (rewrite Hl; by eapply lookup_lt_Some).
    destruct (lookup_lt_is_Some_2 fb i Hi) as [x Hx].
    specialize (Hpos i c c x Hh Hg Hx). rewrite decide_True in Hpos by done.
    by subst.
Qed.

(** The feedback that wins. *)
Lemma result_win (hidden guess : str) :
  length hidden = length guess →
  Simulator._result hidden guess = Ret (replicate (length hidden) "G")
  ↔ guess = hidden.
Proof.
  intros Hlen. destruct (result_green_positions hidden guess Hlen) as (fb & Hrun & Hpos).
  rewrite Hrun. split.
  - intros Hfb. simplify_eq. apply list_eq. intros i.
    destruct (decide (i < length hidden)) as [Hi|Hi].
    + destruct (proj1 (Hpos i)) as (c & -> & ->); [|done].
      by apply lookup_replicate_2.
    + rewrite !lookup_ge_None_2 by lia. done.
  - intros ->. f_equal. apply list_eq. intros i.
    destruct (decide (i < length hidden)) as [Hi|Hi].
    + rewrite lookup_replicate_2 by done. apply Hpos.
      destruct (lookup_lt_is_Some_2 hidden i Hi) as [c Hc]. by exists c.
    + rewrite lookup_ge_None_2.
      2:{ destruct (result_shape hidden hidden eq_refl) as (fb' & Hrun' & Hl & _).
          rewrite Hrun in Hrun'. simplify_eq. lia. }
      by rewrite lookup_ge_None_2 by (rewrite length_replicate; lia).
Qed.

(** X1. On a hidden word and a guess of the same length [_result] returns
    a feedback of that length made of the letters G, Y and K only. *)
Theorem result_alphabet (hidden guess : str) :
  length hidden = length guess →
  ∃ fb,
    Simulator._result hidden guess = Ret fb
    ∧ length fb = length guess
    ∧ Forall (λ c, c = "G" ∨ c = "Y" ∨ c = "K") fb.
Proof. intros Hlen. by apply result_colours. Qed.

Lemma result_alphabet_witness :
  ∃ fb,
    Simulator._result (py "speed") (py "erase") = Ret fb
    ∧ length fb = 5
    ∧ Forall (λ c, c = "G" ∨ c = "Y" ∨ c = "K") fb.
Proof. apply (result_alphabet (py "speed") (py "erase")). reflexivity. Defined.

(** X2. On words of the same length, the feedback is G at a position
    exactly when the guess and the hidden word have the same letter
    there. *)
Theorem result_green_iff (hidden guess : str) :
  length hidden = length guess →
  ∃ fb,
    Simulator._result hidden guess = Ret fb
    ∧ ∀ i, fb !! i = Some "G"
           ↔ ∃ c, guess !! i = Some c ∧ hidden !! i = Some c.
Proof. intros Hlen. by apply result_green_positions. Qed.

Lemma result_green_iff_witness :
  ∃ fb,
    Simulator._result (py "those") (py "geese") = Ret fb
    ∧ ∀ i, fb !! i = Some "G"
           ↔ ∃ c, py "geese" !! i = Some c ∧ py "those" !! i = Some c.
Proof. apply (result_green_iff (py "those") (py "geese")). reflexivity. Defined.

(** X3. On words of the same length, the feedback is all G exactly when
    the guess is the hidden word. *)
Theorem result_all_green_iff (hidden guess : str) :
  length hidden = length guess →
  Simulator._result hidden guess = Ret (replicate (length hidden) "G")
  ↔ guess = hidden.
Proof. intros Hlen. by apply result_win. Qed.

Lemma result_all_green_iff_witness :
  Simulator._result (py "ratio") (py "ratio") = Ret (replicate 5 "G")
  ↔ py "ratio" = py "ratio".
Proof. apply (result_all_green_iff (py "ratio") (py "ratio")). reflexivity. Defined.

(** ** The simulator: a guess while attempts remain *)

Section simulator_round.
Import Simulator.

(** A feedback letter: one of the keys of [blocks_unicode] and [blocks_cc]. *)
Definition colour (c : ascii) : Prop := c = "G" ∨ c = "Y" ∨ c = "K".

Global Instance colour_dec c : Decision (colour c).
Proof. unfold colour. apply _. Defined.

Lemma blocks_unicode_colour c :
  (∃ u, blocks_unicode c = Ret u) ↔ colour c.
Proof.
  unfold blocks_unicode, colour.
  destruct (decide (c = "G")); [split; eauto|].
  destruct (decide (c = "Y")); [split; eauto|].
  destruct (decide (c = "K")); [split; eauto|].
  split; [by intros [? ?]|tauto].
Qed.

Lemma blocks_cc_colour c : colour c → ∃ cc, blocks_cc c = Ret cc.
Proof.
  unfold blocks_cc. intros [ -> | [ -> | -> ] ]; repeat case_decide; eauto; done.
Qed.

Lemma alpha_blocks_loop_returns zipped : ∀ blocks a,
  Forall (λ p, colour p.2) zipped →
  ∃ blocks' a', alpha_blocks_loop zipped blocks a = (Ret blocks', a').
Proof.
  induction zipped as [|[G R] zipped IH]; intros blocks a Hall; simpl.
  { by eexists _, _. }
  apply Forall_cons in Hall as [HR Hall]. simpl in HR.
  destruct (blocks_cc_colour R HR) as [cc ->]. by apply IH.
Qed.

Lemma convert_alpha_blocks_returns guess result a :
  Forall colour result →
  ∃ blocks a', convert_alpha_blocks guess result a = (Ret blocks, a').
Proof.
  intros Hall. unfold convert_alpha_blocks.
  destruct (alpha_blocks_loop_returns (zip (upper guess) result) [] a)
    as (blocks & a' & ->).
  { apply Forall_forall. intros [G R] Hin. simpl.
    rewrite Forall_forall in Hall. apply Hall.
    by apply elem_of_zip_r in Hin. }
  by eexists _, _.
Qed.

Lemma forallb_green fb :
  forallb (λ r, bool_decide (r = "G")) fb = true
  ↔ fb = replicate (length fb) "G".
Proof.
  induction fb as [|c fb IH]; simpl; [done|].
  rewrite andb_true_iff, bool_decide_eq_true, IH. split.
  - intros [-> <-]. done.
  - intros Heq. simplify_eq. split; [done|]. congruence.
Qed.

End simulator_round.

(** The two outcomes of [convert_unicode]. *)
Lemma convert_unicode_cases (result : str) :
  (Forall colour result →
   ∃ us, Simulator.convert_unicode result = Ret us ∧ length us = length result)
  ∧ (¬ Forall colour result → Simulator.convert_unicode result = Throw KeyError).
Proof.
  induction result as [|c result [IHok IHko]]; simpl.
  { split; [by exists []|]. intros []. constructor. }
  destruct (decide (colour c)) as [Hc|Hc].
  - destruct (proj2 (blocks_unicode_colour c) Hc) as [u ->]. split.
    + intros [_ Hall]%Forall_cons. destruct (IHok Hall) as (us & -> & Hlen).
      exists (u :: us). simpl. by rewrite Hlen.
    + intros Hnot. rewrite IHko; [done|]. intros Hall. apply Hnot. by constructor.
  - assert (Simulator.blocks_unicode c = Throw KeyError) as ->.
    { destruct (Simulator.blocks_unicode c) as [u|e] eqn:Hb.
      - destruct Hc. apply blocks_unicode_colour. by exists u.
      - unfold Simulator.blocks_unicode in Hb. repeat case_decide; by simplify_eq. }
    split; [|done]. by intros [? _]%Forall_cons.
Qed.

(** X4. [convert_unicode] returns one emoji per feedback letter when the
    string holds only G, Y and K, and raises KeyError as soon as it holds
    any other character. *)
Theorem convert_unicode_colours (result : str) :
  (Forall colour result →
   ∃ us, Simulator.convert_unicode result = Ret us ∧ length us = length result)
  ∧ (¬ Forall colour result → Simulator.convert_unicode result = Throw KeyError).
Proof. apply convert_unicode_cases. Qed.

Lemma convert_unicode_colours_witness :
  (∃ us, Simulator.convert_unicode (py "GYK") = Ret us ∧ length us = 3)
  ∧ Simulator.convert_unicode (py "GXK") = Throw KeyError.
Proof.
  split.
  - apply (proj1 (convert_unicode_colours (py "GYK"))).
    apply (bool_decide_unpack _). vm_compute. exact I.
  - apply (proj2 (convert_unicode_colours (py "GXK"))).
    intros Hall. apply Forall_cons in Hall as [_ Hall].
    apply Forall_cons in Hall as [Hx _].
    destruct Hx as [Hx|[Hx|Hx]]; discriminate Hx.
Defined.

Section simulator_round_facts.
Import Simulator.

(** A guess of the length of the word, made while attempts remain. *)
Lemma guess_within s w :
  length w = length (word s) →
  (n_guesses s < max_guesses s)%Z →
  ∃ fb us blocks a',
    _result (word s) (lower w) = Ret fb
    ∧ convert_unicode fb = Ret us
    ∧ guess s w
      = Ok fb
          (Sim (word s) (n_guesses s + 1) (max_guesses s) (results s ++ [fb])
             (unicode_results s ++ [us]) (alpha_blocks_results s ++ [blocks])
             (bool_decide (lower w = word s)
              || bool_decide (n_guesses s + 1 = max_guesses s)%Z
              || done s)
             (verbose s) a').
Proof.
  intros Hlen Hmax.
  assert (Hlen' : length (word s) = length (lower w)).
  { unfold lower. by rewrite length_map. }
  destruct (result_colours (word s) (lower w) Hlen') as (fb & Hrun & Hl & Hcol).
  destruct (proj1 (convert_unicode_cases fb) Hcol) as (us & Hus & _).
  destruct (convert_alpha_blocks_returns (lower w) fb (chosen_alphabet s) Hcol)
    as (blocks & a' & Hab).
  exists fb, us, blocks, a'. split_and!; [done..|].
  unfold guess. rewrite (decide_True (P := (n_guesses s + 1 ≤ max_guesses s)%Z)) by lia.
  rewrite Hrun, Hus, Hab.
  assert (Hwin : forallb (λ r, bool_decide (r = "G")) fb
                 = bool_decide (lower w = word s)).
  { apply eq_true_iff_eq. rewrite forallb_green, bool_decide_eq_true.
    rewrite <- (result_win (word s) (lower w) Hlen'), Hrun.
    rewrite Hl, <- Hlen'. split; congruence. }
  rewrite Hwin. destruct (bool_decide (lower w = word s)); simpl.
  - done.
  - by case_decide; [rewrite bool_decide_eq_true_2|rewrite bool_decide_eq_false_2].
Qed.

End simulator_round_facts.

(** X5. A guess whose lowercased form has the length of the word, made
    while attempts remain, never raises: [guess] returns the feedback of
    [_result] for the lowercased guess, appends it to [results] and
    appends one entry to each of the two rendered histories, and counts
    the attempt. *)
Theorem guess_within_attempts (s : Simulator.simulator) (w : str) :
  length (lower w) = length (Simulator.word s) →
  (Simulator.n_guesses s < Simulator.max_guesses s)%Z →
  ∃ fb s',
    Simulator._result (Simulator.word s) (lower w) = Ret fb
    ∧ Simulator.guess s w = Ok fb s'
    ∧ Simulator.results s' = Simulator.results s ++ [fb]
    ∧ length (Simulator.unicode_results s')
      = S (length (Simulator.unicode_results s))
    ∧ length (Simulator.alpha_blocks_results s')
      = S (length (Simulator.alpha_blocks_results s))
    ∧ Simulator.n_guesses s' = (Simulator.n_guesses s + 1)%Z.
Proof.
  intros Hlen Hmax. unfold lower in Hlen. rewrite length_map in Hlen.
  destruct (guess_within s w Hlen Hmax) as (fb & us & blocks & a' & Hr & _ & Hrun).
  eexists fb, _. split_and!; [exact Hr|exact Hrun|..]; simpl;
    rewrite ?length_app; simpl; try done; lia.
Qed.

Lemma guess_within_attempts_witness :
  ∃ fb s',
    Simulator.guess (Simulator.init (py "ratio") 6 false) (py "Arise") = Ok fb s'
    ∧ Simulator.results s' = [fb].
Proof.
  destruct (guess_within_attempts (Simulator.init (py "ratio") 6 false) (py "Arise"))
    as (fb & s' & _ & Hrun & Hres & _).
  - reflexivity.
  - simpl. lia.
  - exists fb, s'. split; [exact Hrun|exact Hres].
Defined.

(** X6. After a guess of the length of the word made while attempts
    remain, the game is over exactly when the lowercased guess is the
    word, or this was the last allowed attempt, or the game was over
    already. *)
Theorem guess_done_iff (s : Simulator.simulator) (w : str) :
  length w = length (Simulator.word s) →
  (Simulator.n_guesses s < Simulator.max_guesses s)%Z →
  Simulator.done (final (Simulator.guess s w)) = true
  ↔ lower w = Simulator.word s
    ∨ (Simulator.n_guesses s + 1 = Simulator.max_guesses s)%Z
    ∨ Simulator.done s = true.
Proof.
  intros Hlen Hmax.
  destruct (guess_within s w Hlen Hmax) as (fb & us & blocks & a' & _ & _ & ->).
  simpl. rewrite !orb_true_iff, !bool_decide_eq_true. tauto.
Qed.

Lemma guess_done_iff_witness :
  Simulator.done
    (final (Simulator.guess (Simulator.init (py "ratio") 6 false) (py "RATIO")))
  = true.
Proof.
  apply (guess_done_iff (Simulator.init (py "ratio") 6 false) (py "RATIO")).
  - reflexivity.
  - simpl. lia.
  - left. reflexivity.
Defined.

(** ** The simulator: what every call keeps *)

Section simulator_invariants.
Import Simulator.

(** The three histories have the same number of entries. *)
Definition histories_in_step (s : simulator) : Prop :=
  length (unicode_results s) = length (results s)
  ∧ length (alpha_blocks_results s) = length (results s).

(** There is a result for at most every attempt counted, and for at most
    [max_guesses] of them. *)
Definition results_bounded (s : simulator) : Prop :=
  (Z.of_nat (length (results s)) ≤ n_guesses s)%Z
  ∧ (Z.of_nat (length (results s)) ≤ Z.max 0 (max_guesses s))%Z.

Lemma guess_cases s w :
  let s' := final (guess s w) in
  n_guesses s' = (n_guesses s + 1)%Z
  ∧ word s' = word s ∧ max_guesses s' = max_guesses s
  ∧ (done s = true → done s' = true)
  ∧ ((results s' = results s
      ∧ unicode_results s' = unicode_results s
      ∧ alpha_blocks_results s' = alpha_blocks_results s)
     ∨ ((n_guesses s + 1 ≤ max_guesses s)%Z
        ∧ ∃ fb us blocks,
            results s' = results s ++ [fb]
            ∧ unicode_results s' = unicode_results s ++ [us]
            ∧ alpha_blocks_results s' = alpha_blocks_results s ++ [blocks])).
Proof.
  unfold guess.
  destruct (decide (n_guesses s + 1 ≤ max_guesses s)%Z) as [Hle|Hgt].
  - destruct (_result (word s) (lower w)) as [fb|e].
    2:{ simpl. split_and!; try done; [by case_decide|by left]. }
    destruct (convert_unicode fb) as [us|e].
    2:{ simpl. split_and!; try done; [by case_decide|by left]. }
    destruct (convert_alpha_blocks (lower w) fb (chosen_alphabet s))
      as [[blocks|e] a'].
    2:{ simpl. split_and!; try done; [by case_decide|by left]. }
    destruct (forallb _ fb); simpl; split_and!; try done;
      try (by case_decide); right; split; try done; by exists fb, us, blocks.
  - simpl. split_and!; try done; [by case_decide|by left].
Qed.

Lemma guess_keeps_bounds s w :
  results_bounded s → results_bounded (final (guess s w)).
Proof.
  unfold results_bounded. intros [Hn Hm].
  destruct (guess_cases s w) as (Hn' & _ & Hm' & _ & [(Hr & _)|(Hle & fb & us & bl & Hr & _)]);
    rewrite Hr, Hn', Hm', ?length_app; simpl; lia.
Qed.

Lemma guesses_keep_bounds ws : ∀ s,
  results_bounded s → results_bounded (final (guesses s ws)).
Proof.
  induction ws as [|w ws IH]; intros s Hs; simpl; [done|].
  pose proof (guess_keeps_bounds s w Hs) as Hs'.
  destruct (guess s w) as [r s'|e s']; simpl in *; [|done].
  specialize (IH s' Hs'). by destruct (guesses s' ws).
Qed.

Lemma guesses_max_guesses ws : ∀ s,
  max_guesses (final (guesses s ws)) = max_guesses s.
Proof.
  induction ws as [|w ws IH]; intros s; simpl; [done|].
  destruct (guess_cases s w) as (_ & _ & Hm & _).
  destruct (guess s w) as [r s'|e s']; simpl in *; [|done].
  specialize (IH s'). destruct (guesses s' ws); simpl in *; congruence.
Qed.

End simulator_invariants.

(** X7. Every call of [guess], whether it returns or raises, counts one
    attempt, leaves the word and [max_guesses] alone, never brings a
    finished game back to life, and keeps the three histories in step:
    they are either all left as they were or all get one more entry. *)
Theorem guess_bookkeeping (s : Simulator.simulator) (w : str) :
  let s' := final (Simulator.guess s w) in
  Simulator.n_guesses s' = (Simulator.n_guesses s + 1)%Z
  ∧ Simulator.word s' = Simulator.word s
  ∧ Simulator.max_guesses s' = Simulator.max_guesses s
  ∧ (Simulator.done s = true → Simulator.done s' = true)
  ∧ Simulator.results s `prefix_of` Simulator.results s'
  ∧ (histories_in_step s → histories_in_step s').
Proof.
  destruct (guess_cases s w) as (Hn & Hw & Hm & Hd & Hh).
  simpl. split_and!; try done.
  - destruct Hh as [(-> & _)|(_ & fb & us & bl & -> & _)]; [done|].
    by apply prefix_app_r.
  - unfold histories_in_step. intros [Hu Ha].
    destruct Hh as [(-> & -> & ->)|(_ & fb & us & bl & -> & -> & ->)]; [done|].
    rewrite !length_app. simpl. lia.
Qed.

Lemma guess_bookkeeping_witness :
  histories_in_step
    (final (Simulator.guess (Simulator.init (py "ratio") 6 false) (py "arise"))).
Proof.
  apply (guess_bookkeeping (Simulator.init (py "ratio") 6 false) (py "arise")).
  split; reflexivity.
Defined.

(** X8. However many guesses are made on a new simulator, and whatever
    they are, [results] never holds more than [max_guesses] feedbacks. *)
Theorem results_never_exceed_max (w : str) (max : Z) (v : bool) (ws : list str) :
  (Z.of_nat (length (Simulator.results
                       (final (Simulator.guesses (Simulator.init w max v) ws))))
   ≤ Z.max 0 max)%Z.
Proof.
  pose proof (guesses_max_guesses ws (Simulator.init w max v)) as Hmax.
  destruct (guesses_keep_bounds ws (Simulator.init w max v)) as [_ Hb].
  { unfold results_bounded. simpl. lia. }
  by rewrite Hmax in Hb.
Qed.

(** ** The simulator: the case of the guess *)

Lemma lower_char_idemp c : lower_char (lower_char c) = lower_char c.
Proof.
  destruct c as [[] [] [] [] [] [] [] []]; reflexivity.
Qed.

Lemma lower_idemp w : lower (lower w) = lower w.
Proof.
  unfold lower. rewrite map_map. apply map_ext. apply lower_char_idemp.
Qed.

(** X9. [guess] only ever looks at the lowercased guess: a word and its
    lowercase form get the same outcome in every state. *)
Theorem guess_case_insensitive (s : Simulator.simulator) (w : str) :
  Simulator.guess s w = Simulator.guess s (lower w).
Proof. unfold Simulator.guess. by rewrite lower_idemp. Qed.

(** ** The solver: when guess raises *)

Section guess_errors.
Import HardMode.


End guess_errors.



(** ** The solver: recomputing the features *)

Section features_again.
Import HardMode.

Lemma key_row_finish n tbl green words ps r :
  key_row (finish n tbl (extend green words ps (key_row r))) = key_row r.
Proof. done. Qed.

End features_again.

(** X11. Recomputing the features of a frame that has just been
    recomputed changes nothing: with [n_letters] at 1 or more and a frame
    whose rows are words of at least [n_letters] letters,
    [wordbank_features] returns, and called again on the state it leaves
    it returns that same state. *)
Theorem wordbank_features_idempotent (s : HardMode.solver) :
  0 < HardMode.n_letters s →
  HardMode.pool s ≠ [] →
  Forall (λ w, HardMode.n_letters s ≤ length w) (HardMode.pool s) →
  ∃ s',
    HardMode.wordbank_features s = Ok tt s'
    ∧ HardMode.wordbank_features s' = Ok tt s'.
Proof. intros Hpos _ Hlen. by apply wordbank_features_fixed. Qed.

Lemma wordbank_features_idempotent_witness :
  ∃ s',
    HardMode.wordbank_features those_geese = Ok tt s'
    ∧ HardMode.wordbank_features s' = Ok tt s'.
Proof.
  apply (wordbank_features_idempotent those_geese).
  - vm_compute. lia.
  - vm_compute. discriminate.
  - change (HardMode.pool those_geese) with [py "those"; py "geese"].
    repeat constructor.
Defined.

(** ** The solver: the in-place score *)

(** The in-place score as the specification words it: over the non-locked
    positions, the number of candidates that share the letter of the word
    at that position. *)
Definition inplace_score_sum (green : gmap nat ascii) (n : nat)
    (words : list str) (w : str) : nat :=
  sum_list (map (λ i, position_frequency words i (letter_at w i))
              (unlocked green n)).

Section inplace_score_facts.
Import HardMode.

Lemma inplace_score_finish n tbl green words r :
  inplace_score (finish n tbl (extend green words (seq 0 n) (key_row r)))
  = sum_list (map (count_of green words (word r)) (seq 0 n))
  ∧ combined_score (finish n tbl (extend green words (seq 0 n) (key_row r)))
    = inplace_score (finish n tbl (extend green words (seq 0 n) (key_row r)))
      + across_score (finish n tbl (extend green words (seq 0 n) (key_row r))).
Proof.
  unfold finish, add_scores, add_across, add_repeat, extend, key_row. simpl.
  by rewrite take_ge by (by rewrite length_map, length_seq).
Qed.

Lemma count_of_frequency green n words w i :
  Forall (λ w, n ≤ length w) words → i < n →
  count_of green words w i
  = if decide (green !! i = None)
    then position_frequency words i (letter_at w i) else 0.
Proof.
  intros Hlong Hi. unfold count_of.
  rewrite (counter_of_lookup green n words Hlong) by done.
  case_decide as Hg; [|done]. unfold letter_of, letter_at. by rewrite Hg.
Qed.

(** A word of the pool is one of the candidates that have its letter. *)
Lemma position_frequency_self words w i :
  w ∈ words → i < length w → 1 ≤ position_frequency words i (letter_at w i).
Proof.
  intros Hw Hi. unfold position_frequency.
  assert (Hin : w ∈ filter (λ w0, w0 !! i = Some (letter_at w i)) words).
  { apply list_elem_of_filter. split; [|done].
    unfold letter_at. destruct (w !! i) eqn:Hl; [done|].
    apply lookup_ge_None in Hl. lia. }
  destruct (filter _ words); simpl; [|lia]. by apply elem_of_nil in Hin.
Qed.

End inplace_score_facts.

(** X12. After [wordbank_features], with [n_letters] at 1 or more and a
    frame whose rows are words of at least [n_letters] letters, the
    [inplace_score] of every candidate is the sum
    over the non-locked positions of the number of candidates that have
    the candidate's letter at that position; it is at least the number of
    non-locked positions, the candidate counting for itself; and
    [combined_score] is the sum of [inplace_score] and [across_score]. *)
Theorem inplace_score_counts (s : HardMode.solver) :
  0 < HardMode.n_letters s →
  HardMode.pool s ≠ [] →
  Forall (λ w, HardMode.n_letters s ≤ length w) (HardMode.pool s) →
  ∃ s',
    HardMode.wordbank_features s = Ok tt s'
    ∧ Forall
        (λ r,
           let green := HardMode.green_letters s in
           let n := HardMode.n_letters s in
           HardMode.inplace_score r
           = inplace_score_sum green n (HardMode.pool s) (HardMode.word r)
           ∧ length (unlocked green n) ≤ HardMode.inplace_score r
           ∧ HardMode.combined_score r
             = HardMode.inplace_score r + HardMode.across_score r)
        (HardMode.wordbank s').
Proof.
  intros Hn _ Hlong. eexists. split; [by apply wordbank_features_ok|].
  simpl. apply Forall_map_iff, Forall_forall. intros r Hr.
  assert (Hw : HardMode.word r ∈ HardMode.pool s).
  { apply elem_of_map_iff. by exists r. }
  destruct (inplace_score_finish (HardMode.n_letters s)
    (HardMode.across_table
       (map (counter_of (HardMode.green_letters s) (HardMode.pool s))
          (seq 0 (HardMode.n_letters s))))
    (HardMode.green_letters s) (HardMode.pool s) r) as [Hin Hco].
  change (HardMode.word (finish _ _ _)) with (HardMode.word r).
  assert (Hsum : HardMode.inplace_score
            (finish (HardMode.n_letters s)
               (HardMode.across_table
                  (map (counter_of (HardMode.green_letters s) (HardMode.pool s))
                     (seq 0 (HardMode.n_letters s))))
               (extend (HardMode.green_letters s) (HardMode.pool s)
                  (seq 0 (HardMode.n_letters s)) (HardMode.key_row r)))
          = inplace_score_sum (HardMode.green_letters s) (HardMode.n_letters s)
              (HardMode.pool s) (HardMode.word r)).
  { rewrite Hin. unfold inplace_score_sum, unlocked. rewrite sum_list_filter.
    apply sum_list_map_ext. intros i Hi%elem_of_seq.
    apply (count_of_frequency _ (HardMode.n_letters s)); [done|lia]. }
  split_and!; [done| |done].
  rewrite Hsum. unfold inplace_score_sum.
  rewrite Forall_forall in Hlong. specialize (Hlong _ Hw).
  assert (Hpos : ∀ i, i ∈ unlocked (HardMode.green_letters s) (HardMode.n_letters s) →
            1 ≤ position_frequency (HardMode.pool s) i (letter_at (HardMode.word r) i)).
  { intros i [_ Hi%elem_of_seq]%list_elem_of_filter.
    apply position_frequency_self; [done|lia]. }
  revert Hpos. generalize (unlocked (HardMode.green_letters s) (HardMode.n_letters s)).
  intros l. induction l as [|i l IH]; intros Hpos; simpl; [done|].
  pose proof (Hpos i (list_elem_of_here _ _)).
  assert (length l ≤ sum_list (map (λ i0, position_frequency (HardMode.pool s) i0
            (letter_at (HardMode.word r) i0)) l)).
  { apply IH. intros j Hj. apply Hpos. by apply list_elem_of_further. }
  lia.
Qed.

Lemma inplace_score_counts_witness :
  ∃ s',
    HardMode.wordbank_features those_geese = Ok tt s'
    ∧ Forall
        (λ r, HardMode.inplace_score r
              = inplace_score_sum ∅ 5 [py "those"; py "geese"] (HardMode.word r))
        (HardMode.wordbank s').
Proof.
  destruct (inplace_score_counts those_geese) as (s' & Hrun & Hall).
  - vm_compute. lia.
  - vm_compute. discriminate.
  - change (HardMode.pool those_geese) with [py "those"; py "geese"].
    repeat constructor.
  - exists s'. split; [exact Hrun|].
    eapply Forall_impl; [exact Hall|]. intros r (Hr & _). exact Hr.
Defined.

(** ** The solver: when the recomputation of features raises *)

(** The word has a letter at every non-locked position among [ps]. *)
Definition long_enough (green : gmap nat ascii) (ps : list nat) (w : str) : Prop :=
  Forall (λ i, green !! i = None → i < length w) ps.

Global Instance long_enough_dec green ps w : Decision (long_enough green ps w).
Proof. unfold long_enough. apply _. Defined.

Section features_raise.
Import HardMode.

Lemma apply_getitem_short i wb :
  ¬ Forall (λ r, i < length (word r)) wb →
  apply (λ r, getitem (word r) i) wb = Throw IndexError.
Proof.
  induction wb as [|r wb IH]; intros Hnot; simpl.
  { destruct Hnot. constructor. }
  unfold getitem at 1. destruct (word r !! i) as [c|] eqn:Hc; [|done].
  apply lookup_lt_Some in Hc. rewrite IH; [done|].
  intros Hall. apply Hnot. by constructor.
Qed.

Lemma long_enough_cons green i ps w :
  long_enough green (i :: ps) w
  ↔ (green !! i = None → i < length w) ∧ long_enough green ps w.
Proof. unfold long_enough. apply Forall_cons. Qed.

(** The first loop of [wordbank_features] returns when every word is long
    enough for the non-locked positions, and raises IndexError if not. *)
Lemma letter_loop_raised green ps : ∀ wb lc,
  (Forall (long_enough green ps) (map word wb) →
   raised (letter_loop green ps wb lc) = None)
  ∧ (¬ Forall (long_enough green ps) (map word wb) →
     raised (letter_loop green ps wb lc) = Some IndexError).
Proof.
  induction ps as [|i ps IH]; intros wb lc.
  { simpl. split; [done|]. intros []. apply Forall_forall. intros w _. constructor. }
  assert (Hsplit : Forall (long_enough green (i :: ps)) (map word wb)
            ↔ (green !! i = None → Forall (λ r, i < length (word r)) wb)
              ∧ Forall (long_enough green ps) (map word wb)).
  { rewrite !Forall_map_iff, !Forall_forall. setoid_rewrite long_enough_cons.
    split.
    - intros Hall. split.
      + intros Hg r Hr. by apply Hall.
      + intros r Hr. by apply Hall.
    - intros [H1 H2] r Hr. split; [intros Hg; by apply H1|by apply H2]. }
  simpl. destruct (green !! i) as [c|] eqn:Hg.
  - destruct (IH (map (λ r, add_letter r "_" 0) wb) (lc ++ [∅])) as [IHok IHko].
    rewrite map_map in IHok, IHko. simpl in IHok, IHko.
    rewrite Hsplit. split.
    + intros [_ Hall]. by apply IHok.
    + intros Hnot. apply IHko. intros Hall. apply Hnot. by split.
  - destruct (decide (Forall (λ r, i < length (word r)) wb)) as [Hlen|Hlen].
    + rewrite apply_getitem by done. rewrite zip_with_map_same.
      match goal with |- context [letter_loop green ps ?wb1 ?lc1] =>
        destruct (IH wb1 lc1) as [IHok IHko] end.
      rewrite map_map in IHok, IHko. simpl in IHok, IHko.
      rewrite Hsplit. split.
      * intros [_ Hall]. by apply IHok.
      * intros Hnot. apply IHko. intros Hall. apply Hnot. by split.
    + rewrite apply_getitem_short by done. simpl. rewrite Hsplit.
      split; [|done]. intros [Hall _]. destruct Hlen. by apply Hall.
Qed.

End features_raise.

(** The outcomes of [wordbank_features]. *)
Lemma wordbank_features_raised (s : HardMode.solver) :
  (raised (HardMode.wordbank_features s) = Some IndexError
   ↔ ∃ w i, w ∈ HardMode.pool s ∧ i < HardMode.n_letters s
            ∧ HardMode.green_letters s !! i = None ∧ length w ≤ i)
  ∧ (raised (HardMode.wordbank_features s) = Some TypeError
     ↔ HardMode.n_letters s = 0)
  ∧ (raised (HardMode.wordbank_features s) = None
     ∨ raised (HardMode.wordbank_features s) = Some IndexError
     ∨ raised (HardMode.wordbank_features s) = Some TypeError)
  ∧ HardMode.pool (final (HardMode.wordbank_features s)) = HardMode.pool s.
Proof.
  destruct (wordbank_features_frame s) as (Hpool & _).
  split_and!; [| | |exact Hpool].
  all: unfold HardMode.wordbank_features.
  all: destruct (letter_loop_raised (HardMode.green_letters s)
         (seq 0 (HardMode.n_letters s))
         (map HardMode.key_row (HardMode.wordbank s)) []) as [Hok Hko].
  all: rewrite map_map in Hok, Hko; simpl in Hok, Hko.
  all: fold (HardMode.pool s) in Hok, Hko.
  all: assert (Hshort :
         ¬ Forall (long_enough (HardMode.green_letters s)
                     (seq 0 (HardMode.n_letters s))) (HardMode.pool s)
         ↔ ∃ w i, w ∈ HardMode.pool s ∧ i < HardMode.n_letters s
                  ∧ HardMode.green_letters s !! i = None ∧ length w ≤ i).
  1,3,5: split.
  1,3,5: intros Hall; apply not_Forall_Exists in Hall; [|apply _];
    apply Exists_exists in Hall as (w & Hw & Hnot); simpl in Hnot;
    unfold long_enough in Hnot; apply not_Forall_Exists in Hnot; [|apply _];
    apply Exists_exists in Hnot as (i & Hi%elem_of_seq & Hni); simpl in Hni;
    exists w, i; split_and!; [done|lia| |];
    [destruct (HardMode.green_letters s !! i) eqn:Hg; [|done];
       destruct Hni; intros; discriminate
    |destruct (decide (length w ≤ i)); [done|]; destruct Hni; intros; lia].
  1,2,3: intros (w & i & Hw & Hi & Hg & Hlen) Hall;
    rewrite Forall_forall in Hall; specialize (Hall w Hw);
    unfold long_enough in Hall; rewrite Forall_forall in Hall;
    assert (i < length w); [|lia]; apply Hall; [|done]; apply elem_of_seq; lia.
  all: try rewrite <- Hshort.
  all: destruct (decide (Forall (long_enough (HardMode.green_letters s)
         (seq 0 (HardMode.n_letters s))) (HardMode.pool s))) as [Hall|Hall].
  all: try specialize (Hok Hall); try specialize (Hko Hall).
  all: destruct (HardMode.letter_loop _ _ _ _) as [[] [wb lc]|e [wb lc]];
    simpl in *; simplify_eq.
  all: try case_decide as Hzero; simpl; try tauto.
  - split; [done|]. intros Hnot. by destruct Hnot.
  - split; [done|]. intros Hnot. by destruct Hnot.
  - split; [done|]. intros Hn. by destruct Hzero.
  - split; [done|]. intros Hn. destruct Hall. rewrite Hn. simpl.
    apply Forall_forall. intros w _. constructor.
Qed.

(** X13. On a frame that has rows [wordbank_features] raises IndexError
    exactly when some word of the pool has no letter at some non-locked
    position below [n_letters] (a word that is too short only at locked
    positions does no harm), TypeError exactly when [n_letters] is 0, and
    nothing else. The pool is the same after the call in every case. *)
Theorem wordbank_features_raises (s : HardMode.solver) :
  HardMode.pool s ≠ [] →
  (raised (HardMode.wordbank_features s) = Some IndexError
   ↔ ∃ w i, w ∈ HardMode.pool s ∧ i < HardMode.n_letters s
            ∧ HardMode.green_letters s !! i = None ∧ length w ≤ i)
  ∧ (raised (HardMode.wordbank_features s) = Some TypeError
     ↔ HardMode.n_letters s = 0)
  ∧ (raised (HardMode.wordbank_features s) = None
     ∨ raised (HardMode.wordbank_features s) = Some IndexError
     ∨ raised (HardMode.wordbank_features s) = Some TypeError)
  ∧ HardMode.pool (final (HardMode.wordbank_features s)) = HardMode.pool s.
Proof. intros _. apply wordbank_features_raised. Qed.

Lemma wordbank_features_raises_witness :
  raised (HardMode.wordbank_features
            (HardMode.set_wordbank
               (map HardMode.read_row [py "ratio"; py "rat"]) those_geese))
  = Some IndexError.
Proof.
  apply (wordbank_features_raises
           (HardMode.set_wordbank
              (map HardMode.read_row [py "ratio"; py "rat"]) those_geese)).
  - vm_compute. discriminate.
  - exists (py "rat"), 3. split_and!.
    + vm_compute. apply list_elem_of_further, list_elem_of_here.
    + vm_compute. lia.
    + reflexivity.
    + vm_compute. lia.
Defined.

(** ** The solver: the pool after a feedback *)

Section pool_sublist.
Import HardMode.

Lemma map_word_sublist (l1 l2 : list row) :
  l1 `sublist_of` l2 → map word l1 `sublist_of` map word l2.
Proof. intros Hs. change (word <$> l1 `sublist_of` word <$> l2). by apply fmap_sublist. Qed.

Lemma filter_loop_sublist n zipped : ∀ i wb cols green,
  map word (final (filter_loop n i zipped wb cols green)).1.1
  `sublist_of` map word wb.
Proof.
  induction zipped as [|[g r] zipped IH]; intros i wb cols green; simpl; [done|].
  case_decide; [apply IH|].
  destruct cols; simpl; [|done].
  case_decide.
  { case_decide; [|done]. etrans; [apply IH|].
    rewrite map_word_slice_replace. apply map_word_sublist, sublist_filter. }
  case_decide.
  { destruct wb as [|x wb]; (etrans; [apply IH|]); [done|].
    apply map_word_sublist, sublist_filter. }
  case_decide; [|done]. etrans; [apply IH|].
  apply map_word_sublist, sublist_filter.
Qed.

End pool_sublist.

(** X14. Whatever the feedback, and whether [load_result] returns or
    raises, the pool it leaves is the pool it found with some words
    taken out: no word is added and the order of the words is kept. *)
Theorem load_result_sublist (result : str) (s : HardMode.solver) :
  HardMode.pool (final (HardMode.load_result result s))
  `sublist_of` HardMode.pool s.
Proof.
  unfold HardMode.load_result.
  destruct (last (HardMode.guesses s)) as [last_guess|]; [|done].
  pose proof (filter_loop_sublist (HardMode.n_letters s) (zip last_guess result) 0
                (map HardMode.key_cols (HardMode.wordbank s)) true
                (HardMode.green_letters s)) as Hsub.
  rewrite map_map in Hsub. simpl in Hsub.
  destruct (HardMode.filter_loop _ _ _ _ _ _)
    as [[] [[wb cols] green]|e [[wb cols] green]]; simpl in *; [|done].
  destruct cols; [|done].
  by destruct (wordbank_features_frame
                (HardMode.set_green_letters green
                   (HardMode.set_wordbank wb
                      (HardMode.set_results (HardMode.results s ++ [result]) s))))
      as (-> & _).
Qed.

(** ** The solver: when load_result raises *)

(** Some position at or past the letter columns carries a symbol other
    than K and is not locked: [i0] is the position of the head of
    [zipped]. *)
Definition past_columns (n : nat) (green : gmap nat ascii) (i0 : nat)
    (zipped : list (ascii * ascii)) : Prop :=
  ∃ k g r, zipped !! k = Some (g, r) ∧ n ≤ i0 + k
           ∧ green !! (i0 + k) = None ∧ r ≠ "K".

Section load_result_raise.
Import HardMode.

Lemma past_columns_cons n green i0 g r rest :
  past_columns n green i0 ((g, r) :: rest)
  ↔ (n ≤ i0 ∧ green !! i0 = None ∧ r ≠ "K") ∨ past_columns n green (S i0) rest.
Proof.
  unfold past_columns. split.
  - intros ([|k] & g' & r' & Hk & Hn & Hg & Hr); simpl in *.
    + simplify_eq. rewrite Nat.add_0_r in *. by left.
    + right. exists k, g', r'. rewrite Nat.add_succ_r in *. done.
  - intros [(Hn & Hg & Hr)|(k & g' & r' & Hk & Hn & Hg & Hr)].
    + exists 0, g, r. rewrite Nat.add_0_r. done.
    + exists (S k), g', r'. rewrite Nat.add_succ_r. done.
Qed.

Lemma past_columns_insert n green i0 c rest :
  i0 < n →
  past_columns n (<[i0 := c]> green) (S i0) rest ↔ past_columns n green (S i0) rest.
Proof.
  intros Hi. unfold past_columns. split;
    intros (k & g' & r' & Hk & Hn & Hg & Hr); exists k, g', r';
    rewrite lookup_insert_ne in * by lia; done.
Qed.

(** The filtering loop can only raise KeyError, and does so when the zip
    holds such a position: at that position if not before. *)
Lemma filter_loop_raised n zipped : ∀ i wb cols green,
  (raised (filter_loop n i zipped wb cols green) = None
   ∨ raised (filter_loop n i zipped wb cols green) = Some KeyError)
  ∧ (past_columns n green i zipped →
     raised (filter_loop n i zipped wb cols green) = Some KeyError).
Proof.
  induction zipped as [|[g r] zipped IH]; intros i wb cols green.
  { simpl. split; [by left|]. by intros (k & ? & ? & ? & _). }
  rewrite past_columns_cons. simpl.
  destruct (decide (is_Some (green !! i))) as [[c Hc]|Hnone].
  { destruct (IH (S i) wb cols green) as [IH1 IH2]. split; [done|].
    intros [(_ & Hg & _)|?]; [congruence|by apply IH2]. }
  destruct cols; simpl; [|split; [by right|done]].
  destruct (decide (r = "G")) as [->|HG].
  { destruct (decide (i < n)) as [Hi|Hi]; [|split; [by right|done]].
    match goal with |- context [filter_loop n (S i) zipped ?wb1 true ?g1] =>
      destruct (IH (S i) wb1 true g1) as [IH1 IH2] end.
    split; [done|]. intros [(? & _)|Hpast]; [lia|].
    apply IH2. by apply past_columns_insert. }
  destruct (decide (r = "K")) as [->|HK].
  { destruct wb as [|x wb].
    - destruct (IH (S i) [] false green) as [IH1 IH2].
      split; [done|]. intros [(_ & _ & ?)|?]; [done|by apply IH2].
    - match goal with |- context [filter_loop n (S i) zipped ?wb1 true ?g1] =>
        destruct (IH (S i) wb1 true g1) as [IH1 IH2] end.
      split; [done|]. intros [(_ & _ & ?)|?]; [done|by apply IH2]. }
  destruct (decide (i < n)) as [Hi|Hi]; [|split; [by right|done]].
  match goal with |- context [filter_loop n (S i) zipped ?wb1 true ?g1] =>
    destruct (IH (S i) wb1 true g1) as [IH1 IH2] end.
  split; [done|]. intros [(? & _)|?]; [lia|by apply IH2].
Qed.

End load_result_raise.

(** X15. With no guess on record [load_result] raises IndexError, the
    feedback being on record by then and nothing else changed. With a
    guess on record it raises KeyError whenever guess and feedback both
    reach a position at or past [n_letters] that is not locked and where
    the feedback is not K. *)
Theorem load_result_raises (result : str) (s : HardMode.solver) :
  (HardMode.guesses s = [] →
   HardMode.load_result result s
   = Raise IndexError (HardMode.set_results (HardMode.results s ++ [result]) s))
  ∧ (∀ last_guess,
       last (HardMode.guesses s) = Some last_guess →
       (∃ i g r, last_guess !! i = Some g ∧ result !! i = Some r
                 ∧ HardMode.n_letters s ≤ i
                 ∧ HardMode.green_letters s !! i = None ∧ r ≠ "K") →
       raised (HardMode.load_result result s) = Some KeyError).
Proof.
  split.
  { intros Hg. unfold HardMode.load_result. by rewrite Hg. }
  intros last_guess Hlast (k & g & r & Hg & Hr & Hpast).
  unfold HardMode.load_result. rewrite Hlast.
  destruct (filter_loop_raised (HardMode.n_letters s) (zip last_guess result) 0
              (map HardMode.key_cols (HardMode.wordbank s)) true
              (HardMode.green_letters s)) as [_ Hraise].
  assert (Hkey : raised (HardMode.filter_loop (HardMode.n_letters s) 0
                          (zip last_guess result)
                          (map HardMode.key_cols (HardMode.wordbank s)) true
                          (HardMode.green_letters s)) = Some KeyError).
  { apply Hraise. exists k, g, r. split; [|done]. by apply lookup_zip_Some. }
  by destruct (HardMode.filter_loop _ _ _ _ _ _)
    as [[] [[wb cols] green]|e [[wb cols] green]].
Qed.

Lemma load_result_raises_witness :
  raised (HardMode.load_result (py "GGGGGG")
            (HardMode.set_guesses [py "thoses"] those_geese))
  = Some KeyError.
Proof.
  apply (proj2 (load_result_raises (py "GGGGGG")
                  (HardMode.set_guesses [py "thoses"] those_geese))
           (py "thoses") eq_refl).
  exists 5, "s", "G". split_and!.
  - reflexivity.
  - reflexivity.
  - change (5 ≤ 5). lia.
  - vm_compute. reflexivity.
  - discriminate.
Defined.

(** ** The solver: what a returned load_result guarantees *)

(** The word with its locked positions blanked. *)
Definition mask (green : gmap nat ascii) (w : str) : str :=
  imap (λ i c, if green !! i is Some _ then "_" else c) w.

(** The rows of a frame with [n] letter columns, as the filtering loop
    needs them when it is at position [i]: [no_green_word] is the masked
    word, the word has a letter for every column, and the letter columns
    of the non-locked positions still to visit hold the letters of the
    word. *)
Definition rows_ok (n i : nat) (green : gmap nat ascii)
    (wb : list HardMode.row) : Prop :=
  Forall
    (λ r, HardMode.no_green_word r = mask green (HardMode.word r)
          ∧ n ≤ length (HardMode.word r)
          ∧ ∀ j, i ≤ j → j < n → green !! j = None →
                 HardMode.letter r !! j = HardMode.word r !! j)
    wb.

(** Every word has the locked letter at every locked position. *)
Definition agree_green (green : gmap nat ascii) (ws : list str) : Prop :=
  ∀ j c, green !! j = Some c → Forall (λ w, w !! j = Some c) ws.

(** The locked positions are positions of the letter columns. *)
Definition bounded (n : nat) (green : gmap nat ascii) : Prop :=
  ∀ j, is_Some (green !! j) → j < n.

(** The state of a solver between two calls that have returned. *)
Definition well_formed (s : HardMode.solver) : Prop :=
  rows_ok (HardMode.n_letters s) 0 (HardMode.green_letters s) (HardMode.wordbank s)
  ∧ agree_green (HardMode.green_letters s) (HardMode.pool s)
  ∧ bounded (HardMode.n_letters s) (HardMode.green_letters s)
  ∧ complete s.

(** What the words [ws] left by the loop satisfy on account of the symbol
    [r] given to the letter [g] at position [j]; [green] is the locking
    before the position was visited, [green'] the locking at the end. *)
Definition sem_at (green green' : gmap nat ascii) (ws : list str)
    (j : nat) (g r : ascii) : Prop :=
  if decide (r = "G") then
    green' !! j = Some g ∧ Forall (λ w, w !! j = Some g) ws
  else if decide (r = "K") then
    Forall (λ w, ∀ p, w !! p = Some g → is_Some (green' !! p)) ws
  else
    Forall (λ w, w !! j ≠ Some g
                 ∧ (g ≠ "_" → ∃ p, w !! p = Some g ∧ green !! p = None)) ws.

Section masked_words.

Lemma lookup_mask green w p :
  mask green w !! p
  = (λ c, if green !! p is Some _ then "_" else c) <$> w !! p.
Proof. unfold mask. by rewrite list_lookup_imap. Qed.

Lemma length_mask green w : length (mask green w) = length w.
Proof. unfold mask. by rewrite length_imap. Qed.

Lemma mask_insert green w i c :
  <[i := "_"]> (mask green w) = mask (<[i := c]> green) w.
Proof.
  apply list_eq. intros p. rewrite lookup_mask.
  destruct (decide (i = p)) as [->|Hne].
  - rewrite lookup_insert_eq.
    destruct (w !! p) as [x|] eqn:Hx; simpl.
    + apply list_lookup_insert_eq. rewrite length_mask. by eapply lookup_lt_Some.
    + apply lookup_ge_None. rewrite length_insert, length_mask.
      by apply lookup_ge_None.
  - rewrite list_lookup_insert_ne, lookup_insert_ne by done. apply lookup_mask.
Qed.

Lemma slice_replace_mask green w i c :
  i < length w →
  take i (mask green w) ++ "_" :: drop (S i) (mask green w)
  = mask (<[i := c]> green) w.
Proof.
  intros Hi. rewrite <- insert_take_drop by (by rewrite length_mask).
  apply mask_insert.
Qed.

(** A letter missing from the masked word is found in the word at locked
    positions only. *)
Lemma not_elem_of_mask green w g p :
  g ∉ mask green w → w !! p = Some g → is_Some (green !! p).
Proof.
  intros Hnot Hp. destruct (green !! p) as [c|] eqn:Hg; [by eexists|].
  destruct Hnot. apply list_elem_of_lookup. exists p.
  by rewrite lookup_mask, Hp, Hg.
Qed.

(** A letter of the masked word, other than the blank, is a letter of
    the word at a position that is not locked. *)
Lemma elem_of_mask green w g :
  g ∈ mask green w → g ≠ "_" → ∃ p, w !! p = Some g ∧ green !! p = None.
Proof.
  intros (p & Hp)%list_elem_of_lookup Hg. rewrite lookup_mask in Hp.
  destruct (w !! p) as [c|] eqn:Hw; [|done]. simpl in Hp.
  destruct (green !! p) eqn:Hgp; simplify_eq. by exists p.
Qed.

Lemma elem_of_mask_2 green w g p :
  w !! p = Some g → green !! p = None → g ∈ mask green w.
Proof.
  intros Hp Hg. apply list_elem_of_lookup. exists p.
  by rewrite lookup_mask, Hp, Hg.
Qed.

End masked_words.

Section filter_loop_invariant.
Import HardMode.

Lemma rows_ok_weaken n i i' green wb :
  i ≤ i' → rows_ok n i green wb → rows_ok n i' green wb.
Proof.
  intros Hi. unfold rows_ok. intros Hall.
  eapply Forall_impl; [exact Hall|]. intros r (Hn & Hl & Hc). simpl.
  split_and!; [done..|]. intros j ? ? ?. apply Hc; [lia|done..].
Qed.

Lemma rows_ok_filter n i green wb (P : row → Prop) `{!∀ x, Decision (P x)} :
  rows_ok n i green wb → rows_ok n i green (filter P wb).
Proof.
  unfold rows_ok. rewrite !Forall_forall.
  intros Hall r [_ Hr]%list_elem_of_filter. by apply Hall.
Qed.

Lemma agree_green_sublist green ws ws' :
  ws' `sublist_of` ws → agree_green green ws → agree_green green ws'.
Proof.
  intros Hsub Hag j c Hj. specialize (Hag j c Hj).
  rewrite Forall_forall in *. intros w Hw. apply Hag.
  by eapply elem_of_sublist.
Qed.

Lemma words_filter_sublist wb (P : row → Prop) `{!∀ x, Decision (P x)} :
  map word (filter P wb) `sublist_of` map word wb.
Proof. apply map_word_sublist, sublist_filter. Qed.

(** A property of the words of the rows passes to the words left by the
    rest of the loop. *)
Lemma words_left (P : str → Prop) wb1 n i zipped cols1 green1 wb' cols' green' :
  filter_loop n i zipped wb1 cols1 green1 = Ok tt (wb', cols', green') →
  (∀ r, r ∈ wb1 → P (word r)) →
  Forall P (map word wb').
Proof.
  intros Hrun HP.
  pose proof (filter_loop_sublist n zipped i wb1 cols1 green1) as Hsub.
  rewrite Hrun in Hsub. simpl in Hsub.
  apply Forall_forall. intros w Hw.
  pose proof (elem_of_sublist _ _ _ Hw Hsub) as (r & -> & Hr)%elem_of_map_iff.
  by apply HP.
Qed.

Lemma sem_at_weaken green0 green1 green' ws j g r :
  green0 ⊆ green1 → sem_at green1 green' ws j g r → sem_at green0 green' ws j g r.
Proof.
  intros Hsub. unfold sem_at. repeat case_decide; try done.
  intros Hall. eapply Forall_impl; [exact Hall|]. intros w [Hw Hp]. simpl.
  split; [done|].
  intros Hg. destruct (Hp Hg) as (p & Hwp & Hnone). exists p. split; [done|].
  destruct (green0 !! p) as [c|] eqn:Hc; [|done].
  by rewrite (lookup_weaken _ _ _ _ Hc Hsub) in Hnone.
Qed.

End filter_loop_invariant.


Section filter_loop_meaning.
Import HardMode.

(** The filtering loop keeps the rows in order and gives every symbol it
    reads its meaning on the words it leaves. *)
Lemma filter_loop_inv n zipped : ∀ i wb cols green wb' cols' green',
  rows_ok n i green wb → agree_green green (map word wb) → bounded n green →
  filter_loop n i zipped wb cols green = Ok tt (wb', cols', green') →
  rows_ok n (i + length zipped) green' wb'
  ∧ agree_green green' (map word wb') ∧ bounded n green' ∧ green ⊆ green'
  ∧ ∀ k g r, zipped !! k = Some (g, r) → green !! (i + k) = None →
      sem_at green green' (map word wb') (i + k) g r.
Proof.
  induction zipped as [|[g r] zipped IH];
    intros i wb cols green wb' cols' green' Hrows Hag Hb Hrun.
  { simpl in *. simplify_eq. rewrite Nat.add_0_r. by split_and!. }
  simpl in Hrun. simpl length. rewrite Nat.add_succ_r.
  assert (Hrest : ∀ wb1 cols1 green1,
    rows_ok n (S i) green1 wb1 → agree_green green1 (map word wb1) →
    bounded n green1 → green ⊆ green1 →
    (∀ j, j ≠ i → green1 !! j = green !! j) →
    filter_loop n (S i) zipped wb1 cols1 green1 = Ok tt (wb', cols', green') →
    (green !! i = None → green1 ⊆ green' → agree_green green' (map word wb') →
     sem_at green1 green' (map word wb') i g r) →
    rows_ok n (S (i + length zipped)) green' wb'
    ∧ agree_green green' (map word wb') ∧ bounded n green' ∧ green ⊆ green'
    ∧ ∀ k g0 r0, ((g, r) :: zipped) !! k = Some (g0, r0) →
        green !! (i + k) = None →
        sem_at green green' (map word wb') (i + k) g0 r0).
  { intros wb1 cols1 green1 Hrows1 Hag1 Hb1 Hsub1 Hsame Hrun1 Hhead.
    destruct (IH (S i) wb1 cols1 green1 wb' cols' green' Hrows1 Hag1 Hb1 Hrun1)
      as (Hr' & Ha' & Hb' & Hs' & Hsem').
    split_and!; [done..|by etrans|].
    intros [|k] g0 r0 Hk Hnone; simpl in Hk.
    - simplify_eq. rewrite Nat.add_0_r in *.
      eapply sem_at_weaken; [exact Hsub1|]. by apply Hhead.
    - rewrite Nat.add_succ_r in *. eapply sem_at_weaken; [exact Hsub1|].
      apply (Hsem' k g0 r0 Hk). simpl. rewrite Hsame by lia. done. }
  destruct (decide (is_Some (green !! i))) as [[c Hc]|Hnone].
  { apply (Hrest wb cols green); try done.
    - eapply rows_ok_weaken; [|exact Hrows]. lia.
    - intros Hn. congruence. }
  destruct cols; simpl in Hrun; [|done].
  assert (Hg : green !! i = None).
  { destruct (green !! i) eqn:E; [|done]. destruct Hnone. by eexists. }
  assert (Hletter : i < n → ∀ x, x ∈ wb → letter x !! i = word x !! i).
  { intros Hi x Hx. unfold rows_ok in Hrows. rewrite Forall_forall in Hrows.
    destruct (Hrows x Hx) as (_ & _ & Hcol). by apply Hcol. }
  assert (Hmask : ∀ x, x ∈ wb → no_green_word x = mask green (word x)).
  { intros x Hx. unfold rows_ok in Hrows. rewrite Forall_forall in Hrows.
    by destruct (Hrows x Hx) as (? & _). }
  destruct (decide (r = "G")) as [->|HG].
  { destruct (decide (i < n)) as [Hi|Hi]; [|done].
    apply Hrest in Hrun; try done.
    - unfold rows_ok in *. rewrite Forall_forall in Hrows.
      apply Forall_map_iff, Forall_forall.
      intros x [Hx Hin]%list_elem_of_filter.
      destruct (Hrows x Hin) as (Hm & Hl & Hcol). simpl.
      split_and!; [|done|].
      + rewrite Hm. apply slice_replace_mask. lia.
      + intros j Hj Hjn Hgj. rewrite lookup_insert_ne in Hgj by lia.
        apply Hcol; [lia|done..].
    - rewrite map_word_slice_replace. intros j c Hj.
      destruct (decide (i = j)) as [->|Hne].
      + rewrite lookup_insert_eq in Hj. simplify_eq.
        apply Forall_map_iff, Forall_forall.
        intros x [Hx Hin]%list_elem_of_filter. by rewrite <- Hletter.
      + rewrite lookup_insert_ne in Hj by done.
        eapply agree_green_sublist; [apply words_filter_sublist|exact Hag|exact Hj].
    - intros j [c Hj]. destruct (decide (i = j)) as [->|Hne]; [done|].
      rewrite lookup_insert_ne in Hj by done. apply Hb. by eexists.
    - by apply insert_subseteq.
    - intros j Hj. by rewrite lookup_insert_ne.
    - intros _ Hsub' Hag'. unfold sem_at. rewrite decide_True by done.
      assert (Hi' : green' !! i = Some g).
      { eapply lookup_weaken; [|exact Hsub']. apply lookup_insert_eq. }
      split; [done|]. by apply Hag'. }
  destruct (decide (r = "K")) as [->|HK].
  { assert (Hrun1 : filter_loop n (S i) zipped
                      (filter (λ x, g ∉ no_green_word x) wb)
                      (bool_decide (wb ≠ [])) green
                    = Ok tt (wb', cols', green')).
    { by destruct wb. }
    clear Hrun. pose proof Hrun1 as Hrun0. apply Hrest in Hrun1; try done.
    - apply rows_ok_filter. eapply rows_ok_weaken; [|exact Hrows]. lia.
    - eapply agree_green_sublist; [apply words_filter_sublist|exact Hag].
    - intros _ Hsub' _. unfold sem_at.
      rewrite decide_False by done. rewrite decide_True by done.
      eapply words_left; [exact Hrun0|].
      intros x [Hx Hin]%list_elem_of_filter p Hp. rewrite Hmask in Hx by done.
      destruct (not_elem_of_mask _ _ _ _ Hx Hp) as [c Hc].
      exists c. by eapply lookup_weaken. }
  destruct (decide (i < n)) as [Hi|Hi]; [|done].
  pose proof Hrun as Hrun0. apply Hrest in Hrun; try done.
  - apply rows_ok_filter. eapply rows_ok_weaken; [|exact Hrows]. lia.
  - eapply agree_green_sublist; [apply words_filter_sublist|exact Hag].
  - intros _ Hsub' _. unfold sem_at. rewrite !decide_False by done.
    eapply words_left; [exact Hrun0|].
    intros x [[Hx Hne] Hin]%list_elem_of_filter.
    rewrite Hmask in Hx by done. rewrite Hletter in Hne by done.
    split; [done|]. intros Hgb. by apply elem_of_mask.
Qed.

End filter_loop_meaning.

Section well_formed_states.
Import HardMode.

Lemma rows_ok_finish n tbl green words wb :
  Forall (λ r, no_green_word r = mask green (word r) ∧ n ≤ length (word r)) wb →
  rows_ok n 0 green
    (map (λ r, finish n tbl (extend green words (seq 0 n) (key_row r))) wb).
Proof.
  intros Hall. unfold rows_ok. apply Forall_map_iff.
  eapply Forall_impl; [exact Hall|]. intros r [Hm Hl]. simpl.
  split_and!; [done..|]. intros j _ Hj Hg.
  rewrite lookup_map_seq by done. unfold letter_of. rewrite Hg.
  destruct (word r !! j) eqn:Hw; [done|]. apply lookup_ge_None in Hw. lia.
Qed.

Lemma rows_ok_long n i green wb :
  rows_ok n i green wb → Forall (λ w, n ≤ length w) (map word wb).
Proof.
  intros Hall. apply Forall_map_iff. eapply Forall_impl; [exact Hall|].
  by intros r (_ & ? & _).
Qed.

Lemma rows_ok_key_cols n i green wb :
  rows_ok n i green wb → rows_ok n i green (map key_cols wb).
Proof.
  intros Hrows. unfold rows_ok in *. apply Forall_map_iff.
  eapply Forall_impl; [exact Hrows|]. by intros r ?.
Qed.

Lemma agree_green_key_cols green wb :
  agree_green green (map word wb) →
  agree_green green (map word (map key_cols wb)).
Proof. by rewrite map_map. Qed.

(** What [load_result] has done when it returns from a well-formed
    state: the loop has returned, and the state is the recomputation of
    what the loop left. *)
Lemma well_formed_guesses gs s : well_formed s → well_formed (set_guesses gs s).
Proof.
  intros (Hrows & Hag & Hb & Hc). split_and!; [done..|].
  by apply complete_guesses.
Qed.

(** What [load_result] has done when it returns from a well-formed
    state: the loop has returned, and the state is the recomputation of
    what the loop left. *)
Lemma load_result_returned result s s' last_guess :
  well_formed s →
  last (guesses s) = Some last_guess →
  load_result result s = Ok tt s' →
  ∃ wb1,
    filter_loop (n_letters s) 0 (zip last_guess result)
      (map key_cols (wordbank s)) true (green_letters s)
    = Ok tt (wb1, true, green_letters s')
    ∧ pool s' = map word wb1
    ∧ n_letters s' = n_letters s
    ∧ well_formed s'.
Proof.
  intros (Hrows & Hag & Hb & Hpos%complete_positive) Hlast Hrun.
  unfold load_result in Hrun. rewrite Hlast in Hrun.
  destruct (filter_loop _ _ _ _ _ _)
    as [[] [[wb1 cols1] green1]|e [[wb1 cols1] green1]] eqn:Hloop; [|done].
  destruct cols1; [|done].
  destruct (filter_loop_inv _ _ _ _ _ _ _ _ _
              (rows_ok_key_cols _ _ _ _ Hrows) (agree_green_key_cols _ _ Hag)
              Hb Hloop)
    as (Hrows1 & Hag1 & Hb1 & Hsub1 & _).
  match type of Hrun with wordbank_features ?s2 = _ =>
    destruct (wordbank_features_fixed s2) as (s2' & Hrun' & Hfix); [done| |] end.
  { unfold pool. simpl. by eapply rows_ok_long. }
  rewrite Hrun in Hrun'. injection Hrun' as <-.
  rewrite wordbank_features_ok in Hrun; [|done|].
  2:{ unfold pool. simpl. by eapply rows_ok_long. }
  simplify_eq. simpl. exists wb1. split_and!; try done.
  { unfold pool. simpl. by rewrite map_map. }
  unfold well_formed. simpl.
  split_and!; [|unfold pool; simpl; by rewrite map_map|done|done].
  apply rows_ok_finish. eapply Forall_impl; [exact Hrows1|].
  by intros r (? & ? & _).
Qed.

End well_formed_states.

(** Well-formed states are established by [reset] and kept. *)
Lemma well_formed_kept :
  (∀ data s,
     plain_words data →
     0 < HardMode.n_letters s →
     Forall (λ w, HardMode.n_letters s ≤ length w) data →
     ∃ s', HardMode.reset data s = Ok tt s' ∧ well_formed s')
  ∧ (∀ result s s',
       well_formed s → HardMode.load_result result s = Ok tt s' → well_formed s')
  ∧ (∀ (sv : HardMode.SortValues) s w s',
       well_formed s → HardMode.guess s = Ok w s' → well_formed s').
Proof.
  split_and!.
  - intros data s Hplain Hpos Hlen. unfold HardMode.reset.
    destruct (plain_words_read data Hplain) as [-> Hna].
    rewrite decide_False by done.
    match goal with |- context [HardMode.wordbank_features ?s1] =>
      destruct (wordbank_features_fixed s1) as (s2 & Hrun & Hfix); [done| |] end.
    { unfold HardMode.pool. simpl. rewrite map_map. simpl.
      by rewrite map_id_ext. }
    rewrite Hrun. eexists. split; [done|].
    rewrite wordbank_features_ok in Hrun; [|done|].
    2:{ unfold HardMode.pool. simpl. rewrite map_map. simpl.
        by rewrite map_id_ext. }
    injection Hrun as <-.
    unfold well_formed. split_and!.
    + simpl. apply rows_ok_finish. apply Forall_map_iff. simpl.
      eapply Forall_impl; [exact Hlen|]. intros w Hw. simpl. split; [|done].
      apply list_eq. intros p. rewrite lookup_mask, lookup_empty.
      by destruct (w !! p).
    + simpl. intros j c Hj. by rewrite lookup_empty in Hj.
    + simpl. intros j [c Hj]. by rewrite lookup_empty in Hj.
    + by apply complete_histories.
  - intros result s s' Hwf Hrun.
    destruct (last (HardMode.guesses s)) as [last_guess|] eqn:Hlast.
    + by destruct (load_result_returned result s s' last_guess Hwf Hlast Hrun)
        as (_ & _ & _ & _ & ?).
    + unfold HardMode.load_result in Hrun. by rewrite Hlast in Hrun.
  - intros sv s w s' Hwf Hrun. unfold HardMode.guess in Hrun.
    destruct (HardMode.score_column _); [|done].
    destruct (HardMode.sort_values _ _); [done|]. simplify_eq.
    by apply well_formed_guesses.
Qed.

(** X16. The states of a solver between calls that return are well
    formed: the frame is complete, every word has a letter for each of
    the [n_letters] positions, [no_green_word] is the word with its locked
    positions blanked, the locked positions lie below [n_letters], and
    every word of the pool has the locked letter at every locked position.
    [reset] leaves such a state when [n_letters] is 1 or more and the file
    is a list of plain words that are long enough, and [load_result] and
    [guess] keep it whenever they return. *)
Theorem well_formed_invariant :
  (∀ data s,
     plain_words data →
     0 < HardMode.n_letters s →
     Forall (λ w, HardMode.n_letters s ≤ length w) data →
     ∃ s', HardMode.reset data s = Ok tt s' ∧ well_formed s')
  ∧ (∀ result s s',
       well_formed s → HardMode.load_result result s = Ok tt s' → well_formed s')
  ∧ (∀ (sv : HardMode.SortValues) s w s',
       well_formed s → HardMode.guess s = Ok w s' → well_formed s').
Proof. exact well_formed_kept. Qed.

Lemma well_formed_invariant_witness :
  well_formed those_geese
  ∧ HardMode.pool (final (HardMode.play (py "those") (py "KKKGG") those_geese))
    = [py "geese"]
  ∧ well_formed (final (HardMode.play (py "those") (py "KKKGG") those_geese)).
Proof.
  destruct well_formed_invariant as (Hreset & Hload & Hguess).
  assert (Hw : well_formed those_geese).
  { destruct (Hreset [py "those"; py "geese"]
                (HardMode.Solver 5 (py "across") false [] ∅ [] [] []))
      as (s' & Hrun & Hwf).
    - apply (bool_decide_unpack _). vm_compute. exact I.
    - vm_compute. lia.
    - repeat constructor.
    - unfold those_geese, HardMode.init. rewrite Hrun. exact Hwf. }
  split_and!; [exact Hw|vm_compute; reflexivity|].
  assert (Hw1 : well_formed
            (HardMode.set_guesses (HardMode.guesses those_geese ++ [py "those"])
               those_geese)).
  { apply (Hguess stable_sort_values those_geese (py "those")).
    - exact Hw.
    - vm_compute. reflexivity. }
  destruct (HardMode.play (py "those") (py "KKKGG") those_geese)
    as [[] s'|e s'] eqn:Hrun.
  - simpl. apply (Hload (py "KKKGG")
      (HardMode.set_guesses (HardMode.guesses those_geese ++ [py "those"]) those_geese) s').
    + exact Hw1.
    + exact Hrun.
  - vm_compute in Hrun. discriminate Hrun.
Defined.

(** X17. The meaning of a feedback that [load_result] has accepted. When
    the call returns from a well-formed state, for every position that
    the last guess and the feedback both have and that was not locked
    before the call: under G the position is now locked on the guessed
    letter and every word of the pool has that letter there; under K no
    word of the pool has the guessed letter anywhere but at locked
    positions; under any other symbol no word of the pool has the
    guessed letter at the position and, the letter not being the blank,
    every word has it at a position that was not locked before. *)
Theorem load_result_meaning (result last_guess : str) (s s' : HardMode.solver) :
  well_formed s →
  last (HardMode.guesses s) = Some last_guess →
  HardMode.load_result result s = Ok tt s' →
  ∀ i g r,
    last_guess !! i = Some g → result !! i = Some r →
    HardMode.green_letters s !! i = None →
    (r = "G" →
     HardMode.green_letters s' !! i = Some g
     ∧ Forall (λ w, w !! i = Some g) (HardMode.pool s'))
    ∧ (r = "K" →
       Forall (λ w, ∀ p, w !! p = Some g → is_Some (HardMode.green_letters s' !! p))
         (HardMode.pool s'))
    ∧ (r ≠ "G" → r ≠ "K" →
       Forall (λ w, w !! i ≠ Some g
                    ∧ (g ≠ "_" →
                       ∃ p, w !! p = Some g ∧ HardMode.green_letters s !! p = None))
         (HardMode.pool s')).
Proof.
  intros Hwf Hlast Hrun i g r Hg Hr Hnone.
  destruct (load_result_returned result s s' last_guess Hwf Hlast Hrun)
    as (wb1 & Hloop & Hpool & _ & _).
  destruct Hwf as (Hrows & Hag & Hb & _).
  destruct (filter_loop_inv _ _ _ _ _ _ _ _ _
              (rows_ok_key_cols _ _ _ _ Hrows) (agree_green_key_cols _ _ Hag)
              Hb Hloop)
    as (_ & _ & _ & _ & Hsem).
  specialize (Hsem i g r). simpl in Hsem. rewrite <- Hpool in Hsem.
  specialize (Hsem ltac:(by apply lookup_zip_Some) Hnone).
  unfold sem_at in Hsem. split_and!.
  - intros ->. by rewrite decide_True in Hsem.
  - intros ->. by rewrite decide_False, decide_True in Hsem.
  - intros HG HK. by rewrite !decide_False in Hsem.
Qed.

Lemma those_geese_well_formed : well_formed those_geese.
Proof.
  destruct well_formed_kept as (Hreset & _).
  destruct (Hreset [py "those"; py "geese"]
              (HardMode.Solver 5 (py "across") false [] ∅ [] [] []))
    as (s' & Hrun & Hwf).
  - apply (bool_decide_unpack _). vm_compute. exact I.
  - vm_compute. lia.
  - repeat constructor.
  - unfold those_geese, HardMode.init. rewrite Hrun. exact Hwf.
Defined.

Lemma load_result_meaning_witness :
  ∃ s',
    HardMode.load_result (py "KKKGG") (HardMode.set_guesses [py "those"] those_geese)
    = Ok tt s'
    ∧ HardMode.green_letters s' !! 3 = Some "s"
    ∧ Forall (λ w, w !! 3 = Some "s") (HardMode.pool s').
Proof.
  destruct (HardMode.load_result (py "KKKGG")
              (HardMode.set_guesses [py "those"] those_geese))
    as [[] s'|e s'] eqn:Hrun.
  - exists s'. split; [reflexivity|].
    apply (load_result_meaning (py "KKKGG") (py "those")
             (HardMode.set_guesses [py "those"] those_geese) s'
             (well_formed_guesses [py "those"] those_geese those_geese_well_formed)
             eq_refl Hrun 3 "s" "G");
      reflexivity.
  - vm_compute in Hrun. discriminate Hrun.
Defined.

(** ** The scorer on a guess that repeats no letter *)

Section scorer_no_repeat.
Import Simulator ScorerSpec.

(** Pass 1 takes out of the multiset only letters guessed where they
    are. *)
Lemma pass1_multiplicity hs : ∀ gs M c,
  (∀ k, gs !! k = Some c → hs !! k ≠ Some c) →
  multiplicity c (pass1 hs gs M).2 = multiplicity c M.
Proof.
  induction hs as [|h hs IH]; intros [|g gs] M c Hc; simpl; try done.
  assert (Htail : ∀ k, gs !! k = Some c → hs !! k ≠ Some c).
  { intros k. apply (Hc (S k)). }
  case_decide as Hgh.
  - subst h. specialize (IH gs (M ∖ {[+ g +]}) c Htail).
    destruct (pass1 hs gs (M ∖ {[+ g +]})) as [fb M']. simpl in *.
    rewrite IH, multiplicity_difference, multiplicity_singleton.
    case_decide as Hcg; [|lia]. subst c. by destruct (Hc 0 eq_refl).
  - specialize (IH gs M c Htail). by destruct (pass1 hs gs M).
Qed.

Lemma pass2_marked gs : ∀ marks M k sy,
  length marks = length gs → marks !! k = Some (Some sy) →
  pass2 gs marks M !! k = Some sy.
Proof.
  induction gs as [|g gs IH]; intros [|m ms] M [|k] sy Hlen Hm;
    simplify_eq/=; try done.
  - destruct m as [?|]; [|case_decide]; simpl; by apply IH.
Qed.

(** Pass 2 at an unmarked position whose letter was not guessed before. *)
Lemma pass2_unmarked gs : ∀ marks M k c,
  length marks = length gs → gs !! k = Some c → marks !! k = Some None →
  c ∉ take k gs →
  pass2 gs marks M !! k
  = Some (if decide (0 < multiplicity c M) then PRESENT else ABSENT).
Proof.
  induction gs as [|g gs IH]; intros [|m ms] M [|k] c Hlen Hg Hm Hnot;
    simplify_eq/=; try done.
  - by case_decide.
  - apply not_elem_of_cons in Hnot as [Hcg Hnot].
    destruct m as [sy|]; simpl; [by apply IH|].
    case_decide; simpl; [|by apply IH].
    rewrite (IH ms (M ∖ {[+ g +]}) k c) by done.
    rewrite multiplicity_difference, multiplicity_singleton_ne by done.
    by rewrite Nat.sub_0_r.
Qed.

End scorer_no_repeat.

(** The feedback for a guess that repeats no letter. *)
Lemma result_no_repeat_holds (hidden guess : str) :
  length hidden = length guess →
  NoDup guess → lowercase guess →
  ∃ fb,
    Simulator._result hidden guess = Ret fb
    ∧ ∀ i g, guess !! i = Some g →
        fb !! i = Some (if decide (hidden !! i = Some g) then "G"
                        else if decide (g ∈ hidden) then "Y" else "K").
Proof.
  intros Hlen Hnd Hlow. eexists. split.
  { apply result_score_no_blank; [done|].
    eapply Forall_impl; [exact Hlow|]. intros c. apply is_lower_not_blank. }
  intros i g Hg.
  assert (Hi : i < length hidden) by (rewrite Hlen; by eapply lookup_lt_Some).
  destruct (lookup_lt_is_Some_2 hidden i Hi) as [h Hh].
  change (map ScorerSpec.encode ?l) with (ScorerSpec.encode <$> l).
  rewrite list_lookup_fmap. unfold ScorerSpec.score.
  pose proof (pass1_marks hidden guess (list_to_set_disj hidden)) as Hmarks.
  pose proof (pass1_length hidden guess (list_to_set_disj hidden) Hlen) as Hml.
  pose proof (pass1_multiplicity hidden guess (list_to_set_disj hidden) g) as Hmul.
  destruct (ScorerSpec.pass1 hidden guess (list_to_set_disj hidden)) as [marks M].
  simpl in *.
  assert (Hm : marks !! i
               = Some (if decide (g = h) then Some ScorerSpec.EXACT else None)).
  { rewrite Hmarks, lookup_zip_with, Hh. simpl. by rewrite Hg. }
  destruct (decide (g = h)) as [->|Hne].
  - rewrite (pass2_marked guess marks M i ScorerSpec.EXACT) by done.
    by rewrite decide_True.
  - rewrite (pass2_unmarked guess marks M i g); [|done..|].
    2:{ intros (j & Hj & Hlt)%elem_of_take.
        pose proof (NoDup_lookup _ _ _ _ Hnd Hj Hg). lia. }
    rewrite (decide_False (P := hidden !! i = Some g)) by congruence.
    rewrite Hmul.
    2:{ intros k Hk. rewrite (NoDup_lookup _ _ _ _ Hnd Hk Hg). congruence. }
    destruct (decide (g ∈ hidden)) as [Hin|Hin].
    + rewrite decide_True; [done|].
      apply elem_of_multiplicity. by apply elem_of_list_to_set_disj.
    + rewrite decide_False; [done|]. intros Hpos. apply Hin.
      apply elem_of_list_to_set_disj. by apply elem_of_multiplicity.
Qed.

(** X18. For a lowercase guess that repeats no letter, scored against a
    hidden word of the same length, the feedback at a position is G when
    the hidden word has the guessed letter there, Y when it has it
    elsewhere only, and K when it does not have it at all. *)
Theorem result_no_repeat (hidden guess : str) :
  length hidden = length guess →
  NoDup guess → lowercase guess →
  ∃ fb,
    Simulator._result hidden guess = Ret fb
    ∧ ∀ i g, guess !! i = Some g →
        fb !! i = Some (if decide (hidden !! i = Some g) then "G"
                        else if decide (g ∈ hidden) then "Y" else "K").
Proof. intros Hlen Hnd Hlow. by apply result_no_repeat_holds. Qed.

Lemma result_no_repeat_witness :
  ∃ fb,
    Simulator._result (py "ratio") (py "arise") = Ret fb
    ∧ ∀ i g, py "arise" !! i = Some g →
        fb !! i = Some (if decide (py "ratio" !! i = Some g) then "G"
                        else if decide (g ∈ py "ratio") then "Y" else "K").
Proof.
  apply (result_no_repeat (py "ratio") (py "arise")).
  - reflexivity.
  - apply (bool_decide_unpack _). vm_compute. exact I.
  - apply (bool_decide_unpack _). vm_compute. exact I.
Defined.

(** ** The solver: a hidden word that the filter keeps *)

(** What the loop needs of the symbols it reads for the word [h] to stay:
    [i] is the position of the head of [zipped], [green] the locking at
    that point. *)
Definition fits (h : str) (green : gmap nat ascii) (i : nat)
    (zipped : list (ascii * ascii)) : Prop :=
  ∀ k g r, zipped !! k = Some (g, r) → green !! (i + k) = None →
    (r = "G" → h !! (i + k) = Some g)
    ∧ (r = "K" → (g ∉ h) ∧ g ≠ "_")
    ∧ (r ≠ "G" → r ≠ "K" →
       h !! (i + k) ≠ Some g
       ∧ ∃ p, h !! p = Some g ∧ green !! p = None
              ∧ ∀ k' g', zipped !! k' = Some (g', "G") → i + k' ≠ p).

Section filter_keeps.
Import HardMode.

Lemma fits_tail h green green1 i g r zipped :
  fits h green i ((g, r) :: zipped) →
  (∀ j, j ≠ i → green1 !! j = green !! j) →
  (green1 !! i = green !! i ∨ (r = "G" ∧ green !! i = None)) →
  fits h green1 (S i) zipped.
Proof.
  intros Hfits Hsame Hhead k g0 r0 Hk Hnone.
  rewrite Hsame in Hnone by lia.
  destruct (Hfits (S k) g0 r0 Hk) as (HG & HK & HY).
  { by rewrite Nat.add_succ_r. }
  rewrite Nat.add_succ_r in *. split_and!; [done..|].
  intros H1 H2. destruct (HY H1 H2) as (Hne & p & Hp & Hgp & Hopen).
  split; [done|]. exists p. split_and!; [done| |].
  - destruct (decide (p = i)) as [->|Hpi]; [|by rewrite Hsame].
    destruct Hhead as [->|[-> _]]; [done|].
    destruct (Hopen 0 g eq_refl). lia.
  - intros k' g' Hk'. specialize (Hopen (S k') g' Hk'). lia.
Qed.

(** The loop keeps a word that fits the symbols it reads; the frame is
    then never empty, keeps its columns, and the loop returns when the zip
    stays within the letter columns. *)
Lemma filter_loop_keeps n zipped : ∀ i wb green h,
  rows_ok n i green wb → h ∈ map word wb → fits h green i zipped →
  i + length zipped ≤ n →
  ∃ wb' green',
    filter_loop n i zipped wb true green = Ok tt (wb', true, green')
    ∧ h ∈ map word wb'.
Proof.
  induction zipped as [|[g r] zipped IH];
    intros i wb green h Hrows Hh Hfits Hn; simpl in Hn; simpl.
  { by eexists _, _. }
  destruct (decide (is_Some (green !! i))) as [Hsome|Hnone].
  { apply IH; [|exact Hh| |lia].
    - eapply rows_ok_weaken; [|exact Hrows]. lia.
    - eapply fits_tail; [exact Hfits|done|by left]. }
  assert (Hg : green !! i = None).
  { destruct (green !! i) eqn:E; [|done]. destruct Hnone. by eexists. }
  destruct (Hfits 0 g r eq_refl) as (HG & HK & HY).
  { by rewrite Nat.add_0_r. }
  rewrite Nat.add_0_r in HG, HY.
  apply elem_of_map_iff in Hh as (x & -> & Hx).
  pose proof Hrows as Hrows0.
  unfold rows_ok in Hrows0. rewrite Forall_forall in Hrows0.
  destruct (Hrows0 x Hx) as (Hm & Hl & Hcol).
  destruct (decide (r = "G")) as [->|HnG].
  { rewrite decide_True by lia.
    apply IH; [| | |lia].
    - unfold rows_ok. apply Forall_map_iff, Forall_forall.
      intros y [Hy Hin]%list_elem_of_filter.
      destruct (Hrows0 y Hin) as (Hmy & Hly & Hcoly). simpl.
      split_and!; [|done|].
      + rewrite Hmy. apply slice_replace_mask. lia.
      + intros j Hj Hjn Hgj. rewrite lookup_insert_ne in Hgj by lia.
        apply Hcoly; [lia|done..].
    - rewrite map_word_slice_replace. apply elem_of_map_iff. exists x.
      split; [done|]. apply list_elem_of_filter. split; [|done].
      rewrite Hcol by (done || lia). by apply HG.
    - eapply fits_tail; [exact Hfits| |by right].
      intros j Hj. by rewrite lookup_insert_ne. }
  destruct (decide (r = "K")) as [->|HnK].
  { destruct wb as [|x0 wb0]; [by apply elem_of_nil in Hx|].
    apply IH; [| | |lia].
    - apply rows_ok_filter. eapply rows_ok_weaken; [|exact Hrows]. lia.
    - apply elem_of_map_iff. exists x. split; [done|].
      apply list_elem_of_filter. split; [|done].
      destruct (HK eq_refl) as [Hnot Hnb]. rewrite Hm.
      intros Hin. destruct (elem_of_mask _ _ _ Hin Hnb) as (p & Hp & _).
      apply Hnot. by eapply list_elem_of_lookup_2.
    - eapply fits_tail; [exact Hfits|done|by left]. }
  rewrite decide_True by lia.
  apply IH; [| | |lia].
  - apply rows_ok_filter. eapply rows_ok_weaken; [|exact Hrows]. lia.
  - apply elem_of_map_iff. exists x. split; [done|].
    apply list_elem_of_filter. split; [|done].
    destruct (HY HnG HnK) as (Hne & p & Hp & Hgp & _).
    split.
    + rewrite Hm. by eapply elem_of_mask_2.
    + by rewrite Hcol by (done || lia).
  - eapply fits_tail; [exact Hfits|done|by left].
Qed.

End filter_keeps.

Section soundness_no_repeat.
Import HardMode.

(** The feedback of the scorer for a guess of the pool that repeats no
    letter fits the hidden word. *)
Lemma result_fits_hidden s (h g fb : str) :
  well_formed s → h ∈ pool s → g ∈ pool s →
  NoDup g → lowercase g → length h = length g →
  Simulator._result h g = Ret fb →
  fits h (green_letters s) 0 (zip g fb).
Proof.
  intros (_ & Hag & _ & _) Hh Hgp Hnd Hlow Hlen Hfb.
  destruct (result_no_repeat_holds h g Hlen Hnd Hlow) as (fb' & Hfb' & Hsem).
  rewrite Hfb in Hfb'. simplify_eq.
  assert (Hopen : ∀ k c p, g !! k = Some c → green_letters s !! k = None →
            h !! p = Some c → green_letters s !! p = None).
  { intros k c p Hk Hnone Hp.
    destruct (green_letters s !! p) as [d|] eqn:Hd; [|done].
    pose proof (Hag p d Hd) as Hall. rewrite Forall_forall in Hall.
    pose proof (Hall h Hh) as Hhp. pose proof (Hall g Hgp) as Hgp'.
    assert (d = c) as -> by congruence.
    pose proof (NoDup_lookup _ _ _ _ Hnd Hgp' Hk). congruence. }
  intros k c r [Hk Hr]%lookup_zip_Some Hnone. simpl in *.
  rewrite (Hsem k c Hk) in Hr.
  destruct (decide (h !! k = Some c)) as [Hhk|Hhk].
  { simplify_eq. split_and!; [done|done|]. by intros []. }
  destruct (decide (c ∈ h)) as [Hin|Hin]; simplify_eq.
  - split_and!; [done|done|]. intros _ _. split; [done|].
    apply list_elem_of_lookup in Hin as [p Hp]. exists p.
    split_and!; [done|by eapply Hopen|].
    intros k' g' [Hk' Hr']%lookup_zip_Some ->.
    rewrite (Hsem p g' Hk') in Hr'.
    destruct (decide (h !! p = Some g')) as [Hhp|]; [|by case_decide].
    assert (g' = c) as -> by congruence.
    pose proof (NoDup_lookup _ _ _ _ Hnd Hk' Hk). congruence.
  - split_and!; [done| |by intros _ []].
    intros _. split; [done|]. apply is_lower_not_blank.
    unfold lowercase in Hlow. rewrite Forall_forall in Hlow.
    apply Hlow. by eapply list_elem_of_lookup_2.
Qed.

(** The hidden word survives the feedback for a guess of the pool that
    repeats no letter. *)
Lemma load_result_keeps_hidden s (h g fb : str) :
  well_formed s → h ∈ pool s → g ∈ pool s →
  NoDup g → lowercase g →
  length h = length g → length g = n_letters s →
  last (guesses s) = Some g →
  Simulator._result h g = Ret fb →
  ∃ s', load_result fb s = Ok tt s' ∧ h ∈ pool s' ∧ well_formed s'.
Proof.
  intros Hwf Hh Hgp Hnd Hlow Hlen Hn Hlast Hfb.
  pose proof (result_fits_hidden s h g fb Hwf Hh Hgp Hnd Hlow Hlen Hfb) as Hfits.
  pose proof Hwf as (Hrows & Hag & Hb & Hpos%complete_positive).
  destruct (filter_loop_keeps (n_letters s) (zip g fb) 0
              (map key_cols (wordbank s)) (green_letters s) h
              (rows_ok_key_cols _ _ _ _ Hrows))
    as (wb1 & green1 & Hloop & Hin); [by rewrite map_map|exact Hfits| |].
  { rewrite length_zip. simpl. lia. }
  destruct (filter_loop_inv _ _ _ _ _ _ _ _ _
              (rows_ok_key_cols _ _ _ _ Hrows) (agree_green_key_cols _ _ Hag)
              Hb Hloop)
    as (Hrows1 & _).
  assert (∃ s', load_result fb s = Ok tt s') as [s' Hrun].
  { unfold load_result. rewrite Hlast, Hloop.
    match goal with |- context [wordbank_features ?s2] =>
      destruct (wordbank_features_fixed s2) as (s' & Hrun & _); [done| |] end.
    - unfold pool. simpl. by eapply rows_ok_long.
    - by exists s'. }
  exists s'. split; [done|].
  destruct (load_result_returned fb s s' g Hwf Hlast Hrun)
    as (wb1' & Hloop' & Hpool & _ & Hwf').
  split; [|done]. rewrite Hpool.
  rewrite Hloop in Hloop'. by simplify_eq.
Qed.

End soundness_no_repeat.

(** X19. Soundness of the filter for a guess without repeated letters.
    From a well-formed state whose pool holds the hidden word, when the
    last guess on record is a lowercase word of the pool of [n_letters]
    letters that repeats no letter, loading the feedback that [_result]
    gives for it returns, keeps the hidden word in the pool, and leaves a
    well-formed state. *)
Theorem load_result_sound_no_repeat (s : HardMode.solver) (h g fb : str) :
  well_formed s →
  h ∈ HardMode.pool s → g ∈ HardMode.pool s →
  NoDup g → lowercase g →
  length h = length g → length g = HardMode.n_letters s →
  last (HardMode.guesses s) = Some g →
  Simulator._result h g = Ret fb →
  ∃ s',
    HardMode.load_result fb s = Ok tt s'
    ∧ h ∈ HardMode.pool s'
    ∧ well_formed s'.
Proof.
  intros Hwf Hh Hg Hnd Hlow Hlen Hn Hlast Hfb.
  by apply (load_result_keeps_hidden s h g fb).
Qed.

Lemma load_result_sound_no_repeat_witness :
  ∃ s',
    HardMode.load_result (py "KKKGG")
      (HardMode.set_guesses [py "those"] those_geese)
    = Ok tt s'
    ∧ py "geese" ∈ HardMode.pool s'.
Proof.
  destruct (load_result_sound_no_repeat
              (HardMode.set_guesses [py "those"] those_geese)
              (py "geese") (py "those") (py "KKKGG"))
    as (s' & Hrun & Hin & _).
  - exact (well_formed_guesses [py "those"] those_geese those_geese_well_formed).
  - vm_compute. apply list_elem_of_further, list_elem_of_here.
  - vm_compute. apply list_elem_of_here.
  - apply (bool_decide_unpack _). vm_compute. exact I.
  - apply (bool_decide_unpack _). vm_compute. exact I.
  - reflexivity.
  - reflexivity.
  - reflexivity.
  - vm_compute. reflexivity.
  - exists s'. split; [exact Hrun|exact Hin].
Defined.

(** X20. One round of the solving loop. From a well-formed state whose
    pool is made of lowercase words of [n_letters] letters and holds the
    hidden word, when [guess] returns a word that repeats no letter and
    the simulator scores it against the hidden word, [load_result]
    returns on that feedback and the hidden word is still in the pool. *)
Theorem round_keeps_hidden (sv : HardMode.SortValues) (s s1 : HardMode.solver)
    (h g fb : str) :
  well_formed s →
  Forall (λ w, lowercase w ∧ length w = HardMode.n_letters s) (HardMode.pool s) →
  h ∈ HardMode.pool s →
  HardMode.guess s = Ok g s1 →
  NoDup g →
  Simulator._result h g = Ret fb →
  ∃ s',
    HardMode.load_result fb s1 = Ok tt s'
    ∧ h ∈ HardMode.pool s'
    ∧ HardMode.pool s' `sublist_of` HardMode.pool s.
Proof.
  intros Hwf Hpool Hh Hguess Hnd Hfb.
  assert (Hs1 : s1 = HardMode.set_guesses (HardMode.guesses s ++ [g]) s
                ∧ g ∈ HardMode.pool s).
  { unfold HardMode.guess in Hguess.
    destruct (HardMode.score_column (HardMode.score s)) as [by_|]; [|done].
    pose proof (HardMode.sort_values_perm by_ (HardMode.wordbank s)) as Hperm.
    destruct (HardMode.sort_values by_ (HardMode.wordbank s)) as [|r l]; [done|].
    simplify_eq. split; [done|]. apply elem_of_map_iff. exists r.
    split; [done|]. rewrite <- Hperm. apply list_elem_of_here. }
  destruct Hs1 as [-> Hg].
  rewrite Forall_forall in Hpool.
  destruct (Hpool g Hg) as [Hglow Hglen]. destruct (Hpool h Hh) as [_ Hhlen].
  pose proof (well_formed_guesses (HardMode.guesses s ++ [g]) s Hwf) as Hwf1.
  destruct (load_result_keeps_hidden
              (HardMode.set_guesses (HardMode.guesses s ++ [g]) s) h g fb)
    as (s' & Hrun & Hin & _); try done.
  - simpl. congruence.
  - simpl. apply last_snoc.
  - exists s'. split_and!; [done..|].
    pose proof (filter_loop_sublist (HardMode.n_letters s) (zip g fb) 0
                  (map HardMode.key_cols (HardMode.wordbank s)) true
                  (HardMode.green_letters s)) as Hsub.
    destruct (load_result_returned fb
                (HardMode.set_guesses (HardMode.guesses s ++ [g]) s) s' g
                Hwf1 (last_snoc _ _) Hrun)
      as (wb1 & Hloop & -> & _).
    simpl in Hloop. rewrite Hloop in Hsub. simpl in Hsub.
    by rewrite map_map in Hsub.
Qed.

Lemma round_keeps_hidden_witness :
  ∃ g s1 fb s',
    @HardMode.guess stable_sort_values those_geese = Ok g s1
    ∧ Simulator._result (py "geese") g = Ret fb
    ∧ HardMode.load_result fb s1 = Ok tt s'
    ∧ py "geese" ∈ HardMode.pool s'.
Proof.
  destruct (@HardMode.guess stable_sort_values those_geese) as [g s1|e s1] eqn:Hguess.
  2:{ vm_compute in Hguess. discriminate Hguess. }
  assert (Hg : g = py "those").
  { vm_compute in Hguess. by injection Hguess as <- _. }
  destruct (round_keeps_hidden stable_sort_values those_geese s1
              (py "geese") g (py "KKKGG"))
    as (s' & Hrun & Hin & _).
  - exact those_geese_well_formed.
  - apply (bool_decide_unpack _). vm_compute. exact I.
  - vm_compute. apply list_elem_of_further, list_elem_of_here.
  - exact Hguess.
  - rewrite Hg. apply (bool_decide_unpack _). vm_compute. exact I.
  - rewrite Hg. vm_compute. reflexivity.
  - exists g, s1, (py "KKKGG"), s'. split_and!; [reflexivity| |exact Hrun|exact Hin].
    rewrite Hg. vm_compute. reflexivity.
Defined.

(** ** The simulator: the letters put on the keyboard *)

(** The letters of the guess whose feedback is [R], left to right. *)
Definition letters_under (R : ascii) (guess result : str) : list ascii :=
  map fst (filter (λ p, p.2 = R) (zip guess result)).

Section keyboard.
Import Simulator.

Lemma lower_upper_char c : is_lower c → lower_char (upper_char c) = c.
Proof.
  unfold is_lower.
  destruct c as [[] [] [] [] [] [] [] []]; vm_compute; intros [? ?];
    first [reflexivity | lia].
Qed.

Lemma blocks_cc_length R cc : blocks_cc R = Ret cc → length cc = 6.
Proof.
  unfold blocks_cc. repeat case_decide; intros; simplify_eq; reflexivity.
Qed.

(** The loop of [convert_alpha_blocks]: sixteen characters per letter,
    and every letter filed under the colour of its feedback. *)
Lemma alpha_blocks_loop_spec zipped : ∀ blocks a,
  Forall (λ p, colour p.2) zipped →
  ∃ blocks' a',
    alpha_blocks_loop zipped blocks a = (Ret blocks', a')
    ∧ length blocks' = length blocks + 16 * length zipped
    ∧ chosen_G a' = chosen_G a
        ++ map (λ p, lower_char p.1) (filter (λ p, p.2 = "G") zipped)
    ∧ chosen_Y a' = chosen_Y a
        ++ map (λ p, lower_char p.1) (filter (λ p, p.2 = "Y") zipped)
    ∧ chosen_K a' = chosen_K a
        ++ map (λ p, lower_char p.1) (filter (λ p, p.2 = "K") zipped).
Proof.
  induction zipped as [|[G R] zipped IH]; intros blocks a Hall; simpl.
  { exists blocks, a. rewrite !app_nil_r. split_and!; try done; lia. }
  apply Forall_cons in Hall as [HR Hall]. simpl in HR.
  destruct (blocks_cc_colour R HR) as [cc Hcc]. rewrite Hcc.
  apply blocks_cc_length in Hcc.
  destruct (IH (blocks ++ [ESC; "["] ++ cc ++ ["m"; " "; G; " "; ESC; "["; "0"; "m"])
              (chosen_append R (lower_char G) a) Hall)
    as (blocks' & a' & Hrun & Hlen & HG & HY & HK).
  exists blocks', a'. split; [exact Hrun|].
  rewrite !length_app in Hlen. simpl in Hlen. rewrite Hcc in Hlen.
  split; [lia|].
  rewrite HG, HY, HK, !filter_cons. simpl. unfold chosen_append.
  destruct HR as [ -> | [ -> | -> ] ]; repeat case_decide; try done; simpl;
    by rewrite <- ?app_assoc.
Qed.

Lemma letters_under_upper R guess : ∀ result,
  lowercase guess →
  map (λ p : ascii * ascii, lower_char p.1)
    (filter (λ p, p.2 = R) (zip (upper guess) result))
  = letters_under R guess result.
Proof.
  unfold letters_under.
  induction guess as [|g guess IH]; intros [|r result] Hlow; simpl; try done.
  apply Forall_cons in Hlow as [Hg Hlow].
  rewrite !filter_cons. simpl. case_decide; simpl.
  - by rewrite (IH result Hlow), lower_upper_char.
  - by apply IH.
Qed.

End keyboard.

(** X21. [convert_alpha_blocks] on a lowercase guess and a feedback of
    the same length made of G, Y and K never raises: it renders sixteen
    characters per letter and appends every letter of the guess, in
    order, to the list of [chosen_alphabet] that has the colour of its
    feedback, leaving what the lists held before in place. *)
Theorem convert_alpha_blocks_alphabet (guess result : str)
    (a : Simulator.alphabet) :
  lowercase guess → Forall colour result → length result = length guess →
  ∃ blocks a',
    Simulator.convert_alpha_blocks guess result a = (Ret blocks, a')
    ∧ length blocks = 16 * length guess
    ∧ Simulator.chosen_G a'
      = Simulator.chosen_G a ++ letters_under "G" guess result
    ∧ Simulator.chosen_Y a'
      = Simulator.chosen_Y a ++ letters_under "Y" guess result
    ∧ Simulator.chosen_K a'
      = Simulator.chosen_K a ++ letters_under "K" guess result.
Proof.
  intros Hlow Hcol Hlen. unfold Simulator.convert_alpha_blocks.
  destruct (alpha_blocks_loop_spec (zip (upper guess) result) [] a)
    as (blocks & a' & Hrun & Hbl & HG & HY & HK).
  { apply Forall_forall. intros [G R] Hin. simpl.
    rewrite Forall_forall in Hcol. apply Hcol. by apply elem_of_zip_r in Hin. }
  rewrite Hrun. exists (blocks ++ drop (length result) (upper guess)), a'.
  rewrite !letters_under_upper in * by done.
  split_and!; [done| |done..].
  rewrite drop_ge by (unfold upper; rewrite length_map; lia).
  rewrite app_nil_r, Hbl, length_zip. unfold upper. rewrite length_map. simpl. lia.
Qed.

Lemma convert_alpha_blocks_alphabet_witness :
  ∃ blocks a',
    Simulator.convert_alpha_blocks (py "arise") (py "YYKKK")
      (Simulator.Alphabet [] [] [])
    = (Ret blocks, a')
    ∧ Simulator.chosen_Y a' = py "ar"
    ∧ Simulator.chosen_K a' = py "ise".
Proof.
  destruct (convert_alpha_blocks_alphabet (py "arise") (py "YYKKK")
              (Simulator.Alphabet [] [] []))
    as (blocks & a' & Hrun & _ & _ & HY & HK).
  - apply (bool_decide_unpack _). vm_compute. exact I.
  - apply (bool_decide_unpack _). vm_compute. exact I.
  - reflexivity.
  - exists blocks, a'. split_and!; [exact Hrun|exact HY|exact HK].
Defined.
